(** * Message reconciler of baileys-api: event handlers over the message table

    Shallow embedding of the six handlers of [messageHandler]
    (messaging-history.set, messages.upsert, messages.update,
    messages.delete, message-receipt.update, messages.reaction) as
    state-passing programs over a world made of the message table, the
    outcome channel, the session's event bus and the log. *)

From stdpp Require Import base option list strings gmap fin_maps.
From Stdlib Require Import ZArith Ascii.

Open Scope Z_scope.
Open Scope string_scope.
Open Scope list_scope.

(** ** Wire data *)

(** [WAMessageKey]: every field is optional on the wire. *)
Record MessageKey := mkKey {
  key_remoteJid : option string;
  key_fromMe : option bool;
  key_id : option string;
  key_participant : option string }.

(** [MessageUserReceipt]: [userJid] is the only required field. *)
Record MessageUserReceipt := mkReceipt {
  userJid : string;
  receiptTimestamp : option Z;
  readTimestamp : option Z;
  playedTimestamp : option Z }.

(** [proto.IReaction]. *)
Record Reaction := mkReaction {
  reaction_key : option MessageKey;
  reaction_text : option string;
  reaction_groupingKey : option string;
  reaction_senderTimestampMs : option Z }.

#[global] Instance MessageKey_eq_dec : EqDecision MessageKey.
Proof. solve_decision. Defined.
#[global] Instance MessageUserReceipt_eq_dec : EqDecision MessageUserReceipt.
Proof. solve_decision. Defined.
#[global] Instance Reaction_eq_dec : EqDecision Reaction.
Proof. solve_decision. Defined.

(** Values held by the fields of a JS object: a message, an update delta
    or a table row.  [VLong] is a 64-bit [Long] object and [VBytes] a
    [Uint8Array], the two wire representations the storage adapter
    coerces; [VBuffer] is the stored form of bytes. *)
Inductive Val :=
| VNull
| VBool (b : bool)
| VNum (n : Z)
| VLong (n : Z)
| VStr (s : string)
| VBytes (bs : list N)
| VBuffer (bs : list N)
| VKey (k : MessageKey)
| VReceipts (l : list MessageUserReceipt)
| VReactions (l : list Reaction).

#[global] Instance Val_eq_dec : EqDecision Val.
Proof. solve_decision. Defined.

(** A JS object used as a record of named fields.  A field holding
    [undefined] is an absent field. *)
Abbreviation Obj := (gmap string Val).

(** [{...o, f: v}] where [v] may be [undefined]. *)
Definition set_field (f : string) (v : option Val) (o : Obj) : Obj :=
  match v with
  | Some x => <[f:=x]> o
  | None => delete f o
  end.

(** JS truthiness of a field value ([undefined] is [None]). *)
Definition truthy (v : option Val) : bool :=
  match v with
  | None | Some VNull | Some (VBool false) => false
  | Some (VNum n) => negb (Z.eqb n 0)
  | Some (VStr s) => negb (String.eqb s "")
  | Some _ => true
  end.

(** [s || t] on optional strings: the empty string is falsy. *)
Definition str_or (s t : option string) : option string :=
  match s with
  | Some x => if String.eqb x "" then t else Some x
  | None => t
  end.

(** [getKeyAuthor]:
    [(key?.fromMe ? "me" : key?.participant || key?.remoteJid) || ""]. *)
Definition getKeyAuthor (key : option MessageKey) : string :=
  default ""
    (str_or
       (match key with
        | None => None
        | Some k =>
            if default false (key_fromMe k) then Some "me"
            else str_or (key_participant k) (key_remoteJid k)
        end)
       (Some "")).

(** ** The storage adapter *)

(** Modelled from the spec: [transformPrisma] of [@/utils] is not among the
    sources.  The spec describes it as the adapter that converts the wire
    representation into the storage row representation, handling type
    coercion of large integers and byte buffers; it is modelled as that
    coercion applied to every field of the object. *)
Definition coerce (v : Val) : Val :=
  match v with
  | VLong n => VNum n
  | VBytes bs => VBuffer bs
  | _ => v
  end.

Definition transformPrisma (o : Obj) : Obj := coerce <$> o.

(** ** Outcome channel, bus and log *)

Inductive DeleteItem :=
| DelAll (jid : string)
| DelKeys (keys : list MessageKey).

(** Payload of a successful outcome, one shape per emitting handler. *)
Inductive Payload :=
| PMessages (messages : list Obj)
| PMessage (message : Obj)
| PDelete (item : DeleteItem)
| PReceipt (key : MessageKey) (receipt : MessageUserReceipt)
| PReaction (key : MessageKey) (reaction : Reaction).

(** One call of [emitEvent(event, sessionId, data, status, message)];
    an omitted argument is [None]. *)
Record Outcome := mkOutcome {
  ev_name : string;
  ev_session : string;
  ev_payload : option Payload;
  ev_status : option string;
  ev_message : option string }.

(** A [chats.upsert] request put on the session's event bus. *)
Record ChatUpsert := mkChatUpsert {
  chat_id : string;
  conversationTimestamp : Val;
  unreadCount : Z }.

Inductive Level := LInfo | LDebug | LError.

Record LogEntry := mkLog { log_level : Level; log_text : string }.

(** ** World and effects *)

Record World := mkWorld {
  rows : list Obj;                 (* the Message table, in insertion order *)
  nextPk : Z;                      (* auto-increment counter of [pkId] *)
  chats : list (string * string);  (* Chat rows as (sessionId, id) *)
  emitted : list Outcome;
  bus : list ChatUpsert;
  logs : list LogEntry }.

Definition with_rows (t : list Obj) (w : World) : World :=
  mkWorld t (nextPk w) (chats w) (emitted w) (bus w) (logs w).

(** Values a handler can catch: an [Error] instance with its message, or
    any other thrown value. *)
Inductive Thrown :=
| ErrorObj (message : string)
| NonError (v : Val).

Inductive Result (A : Type) :=
| Ok (a : A) (w : World)
| Throw (e : Thrown) (w : World).
Arguments Ok {A} a w.
Arguments Throw {A} e w.

Definition M (A : Type) : Type := World → Result A.

Definition ret {A} (a : A) : M A := λ w, Ok a w.
Definition throw {A} (e : Thrown) : M A := λ w, Throw e w.
Definition bind {A B} (m : M A) (k : A → M B) : M B :=
  λ w, match m w with
       | Ok a w' => k a w'
       | Throw e w' => Throw e w'
       end.

Notation "'let*' x ':=' m 'in' k" := (bind m (λ x, k))
  (at level 10, x name, m at level 100, k at level 200,
   format "'[v' 'let*'  x  :=  m  'in' '/' k ']'").
Notation "m >> k" := (bind m (λ _, k))
  (at level 90, right associativity, format "'[v' m  >> '/' k ']'").

(** [try { m } catch (e) { h e }]. *)
Definition try_catch {A} (m : M A) (h : Thrown → M A) : M A :=
  λ w, match m w with
       | Ok a w' => Ok a w'
       | Throw e w' => h e w'
       end.

(** [for (const x of xs) body x]. *)
Fixpoint for_of {A} (xs : list A) (body : A → M unit) : M unit :=
  match xs with
  | [] => ret tt
  | x :: xs' => body x >> for_of xs' body
  end.

(** [xs.map(f)] for an [f] that may throw. *)
Fixpoint map_of {A B} (xs : list A) (f : A → M B) : M (list B) :=
  match xs with
  | [] => ret []
  | x :: xs' => let* y := f x in let* ys := map_of xs' f in ret (y :: ys)
  end.

(** ** The message table

    The relational engine is an external collaborator; it is modelled by
    its contract: a table keyed by (sessionId, remoteJid, id) with a
    surrogate [pkId], filters in which an [undefined] value constrains
    nothing, statements that fail on a missing required column, on a
    duplicate key or on a missing target row, and interactive transactions
    that restore the table when their body throws. *)

Definition Key : Type := string * string * string.

Definition col_str (f : string) (r : Obj) : option string :=
  match r !! f with
  | Some (VStr s) => Some s
  | _ => None
  end.

Definition key_of (r : Obj) : option Key :=
  match col_str "sessionId" r, col_str "remoteJid" r, col_str "id" r with
  | Some s, Some j, Some i => Some (s, j, i)
  | _, _, _ => None
  end.

Definition has_key (k : Key) (r : Obj) : bool := bool_decide (key_of r = Some k).

Definition has_pk (p : Z) (r : Obj) : bool :=
  bool_decide (r !! "pkId" = Some (VNum p)).

Definition pk_of (r : Obj) : Z :=
  match r !! "pkId" with
  | Some (VNum p) => p
  | _ => 0
  end.

Definition max_pk (t : list Obj) : Z := foldr (λ r acc, Z.max (pk_of r) acc) 0 t.

Inductive Cond :=
| CEq (s : string)
| CIn (l : list (option string)).

Definition Where : Type := list (string * Cond).

(** [{ f: v }] inside a [where]: an [undefined] value adds no constraint. *)
Definition where_eq (f : string) (v : option string) : Where :=
  match v with
  | Some s => [(f, CEq s)]
  | None => []
  end.

Definition cond_holds (c : Cond) (v : option string) : bool :=
  match c, v with
  | CEq s, Some x => String.eqb x s
  | CIn l, Some x => bool_decide (Some x ∈ l)
  | _, None => false
  end.

Definition matches (q : Where) (r : Obj) : bool :=
  forallb (λ fc, cond_holds (snd fc) (col_str (fst fc) r)) q.

Definition cond_valid (c : Cond) : bool :=
  match c with
  | CEq _ => true
  | CIn l => forallb (λ o, bool_decide (is_Some o)) l
  end.

Fixpoint alter_first {A} (P : A → bool) (f : A → A) (l : list A) : list A :=
  match l with
  | [] => []
  | x :: l' => if P x then f x :: l' else x :: alter_first P f l'
  end.

Fixpoint remove_first {A} (P : A → bool) (l : list A) : list A :=
  match l with
  | [] => []
  | x :: l' => if P x then l' else x :: remove_first P l'
  end.

(** The engine's errors.  The message texts stand for the engine's own,
    which also name the statement and the fields concerned. *)
Definition ValidationError : Thrown := ErrorObj "Invalid invocation: argument missing or invalid".
Definition UniqueViolation : Thrown := ErrorObj "Unique constraint failed".
Definition RecordNotFound : Thrown := ErrorObj "Record to update or delete does not exist".

Definition findFirst (q : Where) : M (option Obj) :=
  λ w, Ok (List.find (matches q) (rows w)) w.

Definition deleteMany (q : Where) : M unit :=
  λ w, if forallb (λ fc, cond_valid (snd fc)) q
       then Ok tt (with_rows (List.filter (λ r, negb (matches q r)) (rows w)) w)
       else Throw ValidationError w.

(** The [sessionId_remoteJid_id] selector: all three parts are required. *)
Definition where_unique (sessionId : string) (remoteJid id : option string) : M Key :=
  match remoteJid, id with
  | Some j, Some i => ret (sessionId, j, i)
  | _, _ => throw ValidationError
  end.

(** A single-row insert.  The row is appended to the list, which so
    records the order of insertion; it is the order of [pkId] as long as
    no row is inserted with a [pkId] of its own. *)
Definition create (data : Obj) : M unit :=
  λ w, match key_of data with
       | None => Throw ValidationError w
       | Some k =>
           if existsb (has_key k) (rows w) then Throw UniqueViolation w
           else match data !! "pkId" with
                | None =>
                    let p := Z.max (nextPk w) (1 + max_pk (rows w)) in
                    Ok tt (mkWorld (rows w ++ [<["pkId":=VNum p]> data]) (p + 1)
                             (chats w) (emitted w) (bus w) (logs w))
                | Some (VNum p) =>
                    if existsb (has_pk p) (rows w) then Throw UniqueViolation w
                    else Ok tt (mkWorld (rows w ++ [data]) (Z.max (nextPk w) (p + 1))
                                  (chats w) (emitted w) (bus w) (logs w))
                | Some _ => Throw ValidationError w
                end
       end.

(** One multi-row insert statement: all rows or none. *)
Definition createMany (data : list Obj) : M unit :=
  λ w, match for_of data create w with
       | Ok a w' => Ok a w'
       | Throw e w' => Throw e (with_rows (rows w) w')
       end.

Definition delete_unique (k : Key) : M unit :=
  λ w, if existsb (has_key k) (rows w)
       then Ok tt (with_rows (remove_first (has_key k) (rows w)) w)
       else Throw RecordNotFound w.

Definition key_columns : list string := ["pkId"; "sessionId"; "remoteJid"; "id"].

Definition touches_key (data : Obj) : bool :=
  existsb (λ f, bool_decide (is_Some (data !! f))) key_columns.

(** Field-level partial update of the row selected by [k]: the columns
    named in [data] are overwritten, the others kept.  The constraints are
    checked only when [data] writes a key column. *)
Definition update_unique (k : Key) (data : Obj) : M unit :=
  λ w, match List.find (has_key k) (rows w) with
       | None => Throw RecordNotFound w
       | Some r =>
           let r' := data ∪ r in
           let others := remove_first (has_key k) (rows w) in
           if touches_key data then
             match key_of r', r' !! "pkId" with
             | Some k', Some (VNum p) =>
                 if existsb (has_key k') others || existsb (has_pk p) others
                 then Throw UniqueViolation w
                 else Ok tt (with_rows (alter_first (has_key k) (λ _, r') (rows w)) w)
             | _, _ => Throw ValidationError w
             end
           else Ok tt (with_rows (alter_first (has_key k) (λ _, r') (rows w)) w)
       end.

Definition upsert_unique (k : Key) (createData updateData : Obj) : M unit :=
  λ w, if existsb (has_key k) (rows w)
       then update_unique k updateData w
       else create createData w.

Definition chat_count (sessionId id : string) : M nat :=
  λ w, Ok (length (List.filter (λ c, bool_decide (c = (sessionId, id))) (chats w))) w.

(** [prisma.$transaction(async (tx) => body)]: a body that throws leaves
    the table as it was; what it sent to the outcome channel, the bus or
    the log stays sent. *)
Definition transaction {A} (body : M A) : M A :=
  λ w, match body w with
       | Ok a w' => Ok a w'
       | Throw e w' => Throw e (with_rows (rows w) w')
       end.

(** Modelled from the spec: [emitEvent] of [@/utils] is not among the
    sources.  The spec describes the outcome channel as keyed by
    (eventName, sessionId, payload or undefined, status?, message?); a
    call publishes one outcome with exactly these five parts. *)
Definition emitEvent (name sessionId : string) (data : option Payload)
    (status message : option string) : M unit :=
  λ w, Ok tt (mkWorld (rows w) (nextPk w) (chats w)
                (emitted w ++ [mkOutcome name sessionId data status message])
                (bus w) (logs w)).

Definition logger (lvl : Level) (text : string) : M unit :=
  λ w, Ok tt (mkWorld (rows w) (nextPk w) (chats w) (emitted w) (bus w)
                (logs w ++ [mkLog lvl text])).

(** [event.emit("chats.upsert", [c])] on the session's event bus. *)
Definition bus_emit (c : ChatUpsert) : M unit :=
  λ w, Ok tt (mkWorld (rows w) (nextPk w) (chats w) (emitted w)
                (bus w ++ [c]) (logs w)).

(** ** The handlers *)

Definition TypeError_read (what prop : string) : Thrown :=
  ErrorObj ("Cannot read properties of " +:+ what +:+ " (reading '" +:+ prop +:+ "')").

Definition empty_key : MessageKey := mkKey None None None None.

(** [o.key.prop]: reading a property of [o.key] throws when [o.key] is
    [undefined] or [null]; [prop] is the property read first. *)
Definition read_key (o : Obj) (prop : string) : M MessageKey :=
  match o !! "key" with
  | Some (VKey k) => ret k
  | None => throw (TypeError_read "undefined" prop)
  | Some VNull => throw (TypeError_read "null" prop)
  | Some _ => ret empty_key
  end.

(** The catch block the handlers share: [logText] goes to the log, the
    message built from the operation [op] to the outcome kind [name]. *)
Definition report (name logText op sessionId : string) (e : Thrown) : M unit :=
  logger LError logText >>
  let message :=
    match e with
    | ErrorObj m => "An error occured during " +:+ op +:+ ": " +:+ m
    | NonError _ => "Unknown error during during " +:+ op
    end in
  emitEvent name sessionId None (Some "error") (Some message).

(** [{...o, remoteJid, id, sessionId}]. *)
Definition with_key_columns (sessionId : string) (remoteJid id : option string)
    (o : Obj) : Obj :=
  set_field "sessionId" (Some (VStr sessionId))
    (set_field "id" (VStr <$> id)
       (set_field "remoteJid" (VStr <$> remoteJid) o)).

Definition where_message (sessionId : string) (key : MessageKey) : Where :=
  (where_eq "id" (key_id key) ++ where_eq "remoteJid" (key_remoteJid key)
   ++ where_eq "sessionId" (Some sessionId))%list.

(** [v || []] followed by an array method: a truthy value that is not an
    array has no such method.  The texts of the two errors stand for the
    engine's own. *)
Definition receipts_or_empty (v : option Val) : M (list MessageUserReceipt) :=
  match v with
  | Some (VReceipts l) => ret l
  | _ => if truthy v then throw (ErrorObj "userReceipt.find is not a function")
         else ret []
  end.

Definition reactions_or_empty (v : option Val) : M (list Reaction) :=
  match v with
  | Some (VReactions l) => ret l
  | _ => if truthy v then throw (ErrorObj "(intermediate value).filter is not a function")
         else ret []
  end.

(** Replace-or-append of [updateReceipt]. *)
Definition merge_receipt (userReceipt : list MessageUserReceipt)
    (receipt : MessageUserReceipt) : list MessageUserReceipt :=
  match List.find (λ m, String.eqb (userJid m) (userJid receipt)) userReceipt with
  | Some _ =>
      List.filter (λ m, negb (String.eqb (userJid m) (userJid receipt))) userReceipt
      ++ [receipt]
  | None => userReceipt ++ [receipt]
  end.

(** Filter-then-push of [updateReaction]. *)
Definition merge_reaction (stored : list Reaction) (reaction : Reaction) : list Reaction :=
  let authorID := getKeyAuthor (reaction_key reaction) in
  let reactions :=
    List.filter (λ r, negb (String.eqb (getKeyAuthor (reaction_key r)) authorID)) stored in
  if truthy (VStr <$> reaction_text reaction) then reactions ++ [reaction] else reactions.

Section Handlers.

(** Helpers of the protocol library, taken as parameters. *)
Variable jidNormalizedUser : option string → string.
Variable toNumber : option Val → Val.

Variable sessionId : string.

(** The arrow function [set] maps over the batch. *)
Definition process_message (message : Obj) : M Obj :=
  let* key := read_key message "remoteJid" in
  ret (with_key_columns sessionId (key_remoteJid key) (key_id key)
         (transformPrisma message)).

Definition set_body (messages : list Obj) (isLatest : bool) : M unit :=
  (if isLatest then deleteMany (where_eq "sessionId" (Some sessionId)) else ret tt) >>
  let* processedMessages := map_of messages process_message in
  createMany processedMessages >>
  emitEvent "messages.upsert" sessionId (Some (PMessages processedMessages)) None None.

Definition set (messages : list Obj) (isLatest : bool) : M unit :=
  try_catch
    (transaction (set_body messages isLatest) >>
     logger LInfo "Synced messages")
    (report "messages.upsert" "An error occured during messages set"
       "messages set" sessionId).

Definition upsert_body (type : string) (message : Obj) : M unit :=
  let* key := read_key message "remoteJid" in
  let jid := jidNormalizedUser (key_remoteJid key) in
  let data := transformPrisma message in
  let* k := where_unique sessionId (Some jid) (key_id key) in
  upsert_unique k (with_key_columns sessionId (Some jid) (key_id key) data) data >>
  emitEvent "messages.upsert" sessionId (Some (PMessage data)) None None >>
  let* n := chat_count sessionId jid in
  if String.eqb type "notify" && negb (0 <? n)%nat
  then bus_emit (mkChatUpsert jid (toNumber (message !! "messageTimestamp")) 1)
  else ret tt.

Definition upsert (messages : list Obj) (type : string) : M unit :=
  if String.eqb type "append" || String.eqb type "notify"
  then for_of messages (λ message,
         try_catch (upsert_body type message)
           (report "messages.upsert" "An error occured during messages upsert"
              "messages upsert" sessionId))
  else ret tt.

Definition update_body (update : Obj) (key : MessageKey) : M unit :=
  let* prevData := findFirst (where_message sessionId key) in
  match prevData with
  | None => logger LInfo "Got update for non existent message"
  | Some prevData =>
      let data := update ∪ prevData in
      let* k := where_unique sessionId (key_remoteJid key) (key_id key) in
      delete_unique k >>
      let* dkey := read_key data "id" in
      let processedMessage :=
        with_key_columns sessionId (key_remoteJid dkey) (key_id dkey)
          (transformPrisma data) in
      create processedMessage >>
      emitEvent "messages.update" sessionId (Some (PMessage processedMessage)) None None
  end.

Definition update (updates : list (Obj * MessageKey)) : M unit :=
  for_of updates (λ u,
    try_catch (transaction (update_body (fst u) (snd u)))
      (report "messages.update" "An error occured during messages update"
         "messages update" sessionId)).

Definition del_body (item : DeleteItem) : M unit :=
  match item with
  | DelAll jid =>
      deleteMany (where_eq "remoteJid" (Some jid)
                  ++ where_eq "sessionId" (Some sessionId))%list >>
      emitEvent "messages.delete" sessionId (Some (PDelete item)) None None
  | DelKeys keys =>
      let* first :=
        match keys with
        | k :: _ => ret k
        | [] => throw (TypeError_read "undefined" "remoteJid")
        end in
      let jid := key_remoteJid first in
      deleteMany ([("id", CIn (map key_id keys))] ++ where_eq "remoteJid" jid
                  ++ where_eq "sessionId" (Some sessionId))%list >>
      emitEvent "messages.delete" sessionId (Some (PDelete item)) None None
  end.

Definition del (item : DeleteItem) : M unit :=
  try_catch (del_body item)
    (report "messages.delete" "An error occured during messages delete"
       "messages delete" sessionId).

Definition updateReceipt_body (key : MessageKey) (receipt : MessageUserReceipt) : M unit :=
  let* message := findFirst (where_message sessionId key) in
  match message with
  | None => logger LDebug "Got receipt update for non existent message"
  | Some message =>
      let* userReceipt := receipts_or_empty (message !! "userReceipt") in
      let userReceipt := merge_receipt userReceipt receipt in
      let* k := where_unique sessionId (key_remoteJid key) (key_id key) in
      update_unique k (transformPrisma {["userReceipt" := VReceipts userReceipt]}) >>
      emitEvent "message-receipt.update" sessionId (Some (PReceipt key receipt)) None None
  end.

Definition updateReceipt (updates : list (MessageKey * MessageUserReceipt)) : M unit :=
  for_of updates (λ u,
    try_catch (transaction (updateReceipt_body (fst u) (snd u)))
      (report "message-receipt.update" "An error occured during messages receipt update"
         "messages receipt update" sessionId)).

Definition updateReaction_body (key : MessageKey) (reaction : Reaction) : M unit :=
  let* message := findFirst (where_message sessionId key) in
  match message with
  | None => logger LDebug "Got reaction update for non existent message"
  | Some message =>
      let* stored := reactions_or_empty (message !! "reactions") in
      let reactions := merge_reaction stored reaction in
      let* k := where_unique sessionId (key_remoteJid key) (key_id key) in
      update_unique k (transformPrisma {["reactions" := VReactions reactions]}) >>
      emitEvent "messages.reaction" sessionId (Some (PReaction key reaction)) None None
  end.

Definition updateReaction (reactions : list (MessageKey * Reaction)) : M unit :=
  for_of reactions (λ u,
    try_catch (transaction (updateReaction_body (fst u) (snd u)))
      (report "messages.reaction" "An error occured during message reaction update"
         "messages reaction update" sessionId)).

End Handlers.

(** ** Commits that the storage rejects *)

Section Commit.

(** The storage's answer to the commit that an interactive transaction
    requests once its callback has returned, in the state the callback
    left: [None] when the commit is accepted, otherwise the error that
    [$transaction] rejects with (the transaction expired, the connection
    was lost, a deferred check failed). *)
Variable commit : World → option Thrown.

Variable sessionId : string.

(** [prisma.$transaction(async (tx) => body)] on such a storage.  A
    callback that throws and a commit that is rejected both leave the
    table as it was; what the callback sent to the outcome channel, the
    bus or the log before that stays sent.  [transaction] is the case of a
    storage that accepts every commit. *)
Definition transaction_with {A} (body : M A) : M A :=
  λ w, match body w with
       | Ok a w' =>
           match commit w' with
           | None => Ok a w'
           | Some e => Throw e (with_rows (rows w) w')
           end
       | Throw e w' => Throw e (with_rows (rows w) w')
       end.

(** The handler [set] on such a storage. *)
Definition set_with (messages : list Obj) (isLatest : bool) : M unit :=
  try_catch
    (transaction_with (set_body sessionId messages isLatest) >>
     logger LInfo "Synced messages")
    (report "messages.upsert" "An error occured during messages set"
       "messages set" sessionId).

End Commit.

(** ** Vocabulary of the properties *)


Definition disowned {A} (owner : A → string) (u : string) (l : list A) : list A :=
  List.filter (λ x, negb (String.eqb (owner x) u)) l.

(** The world a run ends in, returned or thrown. *)
Definition world_of {A} (r : Result A) : World :=
  match r with
  | Ok _ w => w
  | Throw _ w => w
  end.

(** The world after one more log line, and after one more outcome. *)
Definition logged (lvl : Level) (text : string) (w : World) : World :=
  mkWorld (rows w) (nextPk w) (chats w) (emitted w) (bus w) (logs w ++ [mkLog lvl text]).

Definition published (o : Outcome) (w : World) : World :=
  mkWorld (rows w) (nextPk w) (chats w) (emitted w ++ [o]) (bus w) (logs w).

(** The error outcome built by the catch block of a handler. *)
Definition error_outcome (name op sessionId : string) (e : Thrown) : Outcome :=
  mkOutcome name sessionId None (Some "error")
    (Some match e with
          | ErrorObj m => "An error occured during " +:+ op +:+ ": " +:+ m
          | NonError _ => "Unknown error during during " +:+ op
          end).

(** The receipts a row holds: its [userReceipt] array, or none when the
    column is empty. *)
Definition receipts_in (r : Obj) (stored : list MessageUserReceipt) : Prop :=
  r !! "userReceipt" = Some (VReceipts stored)
  ∨ (truthy (r !! "userReceipt") = false ∧ stored = []).

(** Author identity of a stored or incoming reaction. *)
Definition author (r : Reaction) : string := getKeyAuthor (reaction_key r).

(** [reaction.text] is a non-empty string. *)
Definition has_text (reaction : Reaction) : bool :=
  match reaction_text reaction with
  | Some s => negb (String.eqb s "")
  | None => false
  end.

(** The reactions a row holds. *)
Definition reactions_in (r : Obj) (stored : list Reaction) : Prop :=
  r !! "reactions" = Some (VReactions stored)
  ∨ (truthy (r !! "reactions") = false ∧ stored = []).

(** [quiet m]: [m] publishes no outcome, whether it returns or throws. *)
Definition quiet {A} (m : M A) : Prop :=
  ∀ w, emitted (world_of (m w)) = emitted w.

(** [total m]: [m] never throws. *)
Definition total {A} (m : M A) : Prop := ∀ w, ∃ a w', m w = Ok a w'.


(** [emits_on_ok P m]: [m] publishes exactly one outcome, satisfying [P],
    when it returns, and none when it throws. *)
Definition emits_on_ok {A} (P : Outcome → Prop) (m : M A) : Prop :=
  ∀ w, match m w with
       | Ok _ w' => ∃ o, emitted w' = emitted w ++ [o] ∧ P o
       | Throw _ w' => emitted w' = emitted w
       end.

(** How a row given to an insert is stored: as given, or with the
    [pkId] the table assigned when it had none. *)
Definition stored_as (d st : Obj) : Prop :=
  st = d ∨ (d !! "pkId" = None ∧ ∃ p, st = <["pkId":=VNum p]> d).

(** The rows the filter [{ sessionId }] selects. *)
Definition in_session (s : string) (r : Obj) : bool :=
  matches (where_eq "sessionId" (Some s)) r.

Definition session_rows (s : string) (t : list Obj) : list Obj :=
  List.filter (in_session s) t.

(** The key substructure of a message object, when reading it does not
    throw. *)
Definition message_key (o : Obj) : option MessageKey :=
  match o !! "key" with
  | Some (VKey k) => Some k
  | None | Some VNull => None
  | Some _ => Some empty_key
  end.

(** The row [set] builds for one message. *)
Definition processed_from (s : string) (message p : Obj) : Prop :=
  ∃ k, message_key message = Some k
       ∧ p = with_key_columns s (key_remoteJid k) (key_id k) (transformPrisma message).

(** The success outcomes of [set], [upsert] and [update]. *)
Definition set_success (s : string) (ps : list Obj) : Outcome :=
  mkOutcome "messages.upsert" s (Some (PMessages ps)) None None.

Definition upsert_success (s : string) (message : Obj) : Outcome :=
  mkOutcome "messages.upsert" s (Some (PMessage (transformPrisma message))) None None.

(** The outcome one message of an upsert batch gives rise to. *)
Definition upsert_outcome (s : string) (message : Obj) (o : Outcome) : Prop :=
  o = upsert_success s message
  ∨ ∃ e, o = error_outcome "messages.upsert" "messages upsert" s e.

(** One iteration of the upsert loop: the guarded body. *)
Definition upsert_step (jidNormalizedUser : option string → string)
    (toNumber : option Val → Val) (s type : string) (message : Obj) : M unit :=
  try_catch (upsert_body jidNormalizedUser toNumber s type message)
    (report "messages.upsert" "An error occured during messages upsert"
       "messages upsert" s).


(** The table after one guarded upsert of a message that has a key with
    an id: the row with the message's composite key is updated in place,
    or the row is appended when the key is new. *)
Definition upserted (s jid i : string) (message : Obj) (w : World) : list Obj :=
  match List.find (has_key (s, jid, i)) (rows w) with
  | Some r => alter_first (has_key (s, jid, i)) (λ _, transformPrisma message ∪ r) (rows w)
  | None =>
      rows w ++ [<["pkId":=VNum (Z.max (nextPk w) (1 + max_pk (rows w)))]>
                   (with_key_columns s (Some jid) (Some i) (transformPrisma message))]
  end.

Definition update_success (s : string) (row : Obj) : Outcome :=
  mkOutcome "messages.update" s (Some (PMessage row)) None None.

(** Instances of the protocol library's helpers for runs on concrete
    inputs: the
    normaliser cuts the user part of a chat id at the first [:] or [_]
    and maps the legacy server [c.us] to [s.whatsapp.net]; the number
    conversion unwraps a [Long], exactly, as the library does for values
    below 2^53. *)
Fixpoint jid_user (s : string) : string :=
  match s with
  | EmptyString => ""
  | String c s' =>
      if Ascii.eqb c "@"%char || Ascii.eqb c ":"%char || Ascii.eqb c "_"%char then ""
      else String c (jid_user s')
  end.

Fixpoint jid_server (s : string) : option string :=
  match s with
  | EmptyString => None
  | String c s' => if Ascii.eqb c "@"%char then Some s' else jid_server s'
  end.

Definition jidNormalizedUser_baileys (jid : option string) : string :=
  match jid with
  | None => ""
  | Some j =>
      match jid_server j with
      | None => ""
      | Some server =>
          jid_user j +:+ "@"
          +:+ (if String.eqb server "c.us" then "s.whatsapp.net" else server)
      end
  end.

Definition toNumber_baileys (v : option Val) : Val :=
  match v with
  | Some (VLong n) => VNum n
  | Some x => if truthy v then x else VNum 0
  | None => VNum 0
  end.

(** Inputs of the concrete runs. *)
Definition empty_world : World := mkWorld [] 1 [] [] [] [].

Definition text_message (jid id : string) (status : Z) : Obj :=
  {[ "key" := VKey (mkKey (Some jid) (Some false) (Some id) None);
     "status" := VNum status ]}.

Definition chat : string := "628123@s.whatsapp.net".

(** ** Subscription lifecycle *)

(** The six handlers of one [messageHandler] instance. *)
Inductive Handler :=
| HSet | HUpsert | HUpdate | HDel | HUpdateReceipt | HUpdateReaction.

(** A listener on the session's event source: a handler of this instance,
    or a function of another component. *)
Inductive Listener :=
| Own (h : Handler)
| Foreign (n : nat).

#[global] Instance Handler_eq_dec : EqDecision Handler.
Proof. solve_decision. Defined.
#[global] Instance Listener_eq_dec : EqDecision Listener.
Proof. solve_decision. Defined.

(** The closure state of [messageHandler]: the [listening] flag, and the
    listeners registered on [event], oldest first. *)
Record Subscription := mkSubscription {
  listening : bool;
  listeners : list (string * Listener) }.

(** [event.on(name, f)] appends a listener, also when it is already there. *)
Definition event_on (name : string) (f : Listener)
    (ls : list (string * Listener)) : list (string * Listener) :=
  ls ++ [(name, f)].

(** [event.off(name, f)] removes the most recently added instance of the
    listener, if there is one. *)
Definition event_off (name : string) (f : Listener)
    (ls : list (string * Listener)) : list (string * Listener) :=
  reverse (remove_first (λ x, bool_decide (x = (name, f))) (reverse ls)).

(** The registrations of [listen], in source order. *)
Definition subscriptions : list (string * Listener) :=
  [ ("messaging-history.set", Own HSet);
    ("messages.upsert", Own HUpsert);
    ("messages.update", Own HUpdate);
    ("messages.delete", Own HDel);
    ("message-receipt.update", Own HUpdateReceipt);
    ("messages.reaction", Own HUpdateReaction) ].

Definition listen (st : Subscription) : Subscription :=
  if listening st then st
  else mkSubscription true
         (foldl (λ ls x, event_on (fst x) (snd x) ls) (listeners st) subscriptions).

Definition unlisten (st : Subscription) : Subscription :=
  if negb (listening st) then st
  else mkSubscription false
         (foldl (λ ls x, event_off (fst x) (snd x) ls) (listeners st) subscriptions).

(** A call made on the object [messageHandler] returns. *)
Inductive Call := CallListen | CallUnlisten.

Definition call (st : Subscription) (c : Call) : Subscription :=
  match c with
  | CallListen => listen st
  | CallUnlisten => unlisten st
  end.

(** ** Relations between the table before and after a run *)

(** [still m]: [m] leaves the table as it is, whether it returns or
    throws. *)
Definition still {A} (m : M A) : Prop :=
  ∀ w, rows (world_of (m w)) = rows w.

(** [related R m]: [R] relates the table before a run of [m] to the
    table after it, whether the run returns or throws. *)
Definition related (R : list Obj → list Obj → Prop) {A} (m : M A) : Prop :=
  ∀ w, R (rows w) (rows (world_of (m w))).

(** The rows of the sessions other than [s], in table order. *)
Definition other_rows (s : string) (t : list Obj) : list Obj :=
  List.filter (λ r, negb (in_session s r)) t.

Definition same_others (s : string) (t t' : list Obj) : Prop :=
  other_rows s t' = other_rows s t.

(** ** Scope of a delete request *)

(** The rows of one chat of one session. *)
Definition in_chat (s jid : string) (r : Obj) : bool :=
  bool_decide (col_str "remoteJid" r = Some jid ∧ col_str "sessionId" r = Some s).

(** The rows a delete-by-keys request removes: those of the session and
    of the chat [jid] whose id is the id of one of the keys. *)
Definition named_by (s jid : string) (keys : list MessageKey) (r : Obj) : bool :=
  in_chat s jid r
  && match col_str "id" r with
     | Some i => bool_decide (Some i ∈ map key_id keys)
     | None => false
     end.

Definition delete_success (s : string) (item : DeleteItem) : Outcome :=
  mkOutcome "messages.delete" s (Some (PDelete item)) None None.

(** ** The bulk send controller *)

(** One element of the request body of [sendBulk]; [type] and [delay]
    have defaults. *)
Record BulkItem := mkBulkItem {
  item_jid : string;
  item_type : option string;
  item_delay : option Z;
  item_message : Obj;
  item_options : Obj }.

(** One call of [emitEvent("send.message", sessionId, data, status,
    message)] made by the controller. *)
Record SendEvent := mkSendEvent {
  send_session : string;
  send_data : option (string * option Obj);
  send_status : option string;
  send_message : option string }.

(** What a run of [sendBulk] has accumulated: the [results] and [errors]
    arrays, the events it published, the delays it waited for and the log. *)
Record BulkRun := mkBulkRun {
  results : list (nat * option Obj);
  errors : list (nat * string);
  send_events : list SendEvent;
  slept : list Z;
  send_logs : list string }.

Record BulkResponse := mkBulkResponse {
  response_status : Z;
  response_results : list (nat * option Obj);
  response_errors : list (nat * string) }.

Section SendBulk.

(** The collaborators of the controller, as each call at position [index]
    of the body answers: [WhatsappService.jidExists], [updatePresence] and
    [session.sendMessage] return or throw. *)
Variable jidExists : nat → string → string → Thrown + bool.
Variable updatePresence : nat → string → option Thrown.
Variable sendMessage : nat → string → Obj → Obj → Thrown + option Obj.

Variable sessionId : string.

(** The catch block of the loop body. *)
Definition bulk_caught (index : nat) (e : Thrown) (st : BulkRun) : BulkRun :=
  let message := "An error occured during message send" in
  let errorTrace :=
    match e with
    | ErrorObj m => "An error occured during groups participants update: " +:+ m
    | NonError _ => "Unknown error during during groups participants update"
    end in
  mkBulkRun (results st) (errors st ++ [(index, message)])
    (send_events st
     ++ [mkSendEvent sessionId None (Some "error") (Some (message +:+ ": " +:+ errorTrace))])
    (slept st) (send_logs st ++ [message]).

(** The loop body for the element at position [index]. *)
Definition bulk_item (index : nat) (item : BulkItem) (st : BulkRun) : BulkRun :=
  let jid := item_jid item in
  let type := default "number" (item_type item) in
  let delay := default 1000 (item_delay item) in
  match jidExists index jid type with
  | inl e => bulk_caught index e st
  | inr false =>
      mkBulkRun (results st) (errors st ++ [(index, "JID does not exists")])
        (send_events st) (slept st) (send_logs st)
  | inr true =>
      let st1 :=
        if (0 <? index)%nat
        then mkBulkRun (results st) (errors st) (send_events st)
               (slept st ++ [delay]) (send_logs st)
        else st in
      match updatePresence index jid with
      | Some e => bulk_caught index e st1
      | None =>
          match sendMessage index jid (item_message item) (item_options item) with
          | inl e => bulk_caught index e st1
          | inr result =>
              mkBulkRun (results st1 ++ [(index, result)]) (errors st1)
                (send_events st1
                 ++ [mkSendEvent sessionId (Some (jid, result)) None None])
                (slept st1) (send_logs st1)
          end
      end
  end.

(** [for (const [index, item] of req.body.entries())]. *)
Fixpoint bulk_loop (index : nat) (body : list BulkItem) (st : BulkRun) : BulkRun :=
  match body with
  | [] => st
  | item :: rest => bulk_loop (S index) rest (bulk_item index item st)
  end.

Definition bulk_run (body : list BulkItem) : BulkRun :=
  bulk_loop 0 body (mkBulkRun [] [] [] [] []).

Definition sendBulk (body : list BulkItem) : BulkResponse :=
  let run := bulk_run body in
  mkBulkResponse
    (if negb (length body =? 0)%nat && (length (errors run) =? length body)%nat
     then 500 else 200)
    (results run) (errors run).

End SendBulk.

(** An entry of [errors] made for a JID that does not exist. *)
Definition refused (e : nat * string) : bool :=
  String.eqb (snd e) "JID does not exists".

(** * Properties *)

(** ** Worlds reached *)

Lemma report_eq name logText op sessionId e w :
  report name logText op sessionId e w
  = Ok tt (published (error_outcome name op sessionId e) (logged LError logText w)).
Proof. reflexivity. Qed.

Lemma with_rows_same w : with_rows (rows w) w = w.
Proof. by destruct w. Qed.

(** ** Lookups by composite key *)

Lemma eqb_eq_bool_decide (x y : string) : String.eqb x y = bool_decide (x = y).
Proof.
  destruct (String.eqb_spec x y) as [->|Hne].
  - by rewrite bool_decide_eq_true_2.
  - by rewrite bool_decide_eq_false_2.
Qed.

Lemma matches_where_message sessionId key j i r :
  key_remoteJid key = Some j → key_id key = Some i →
  matches (where_message sessionId key) r = has_key (sessionId, j, i) r.
Proof.
  intros Hj Hi. unfold where_message, has_key, key_of, matches.
  rewrite Hj, Hi. simpl.
  destruct (col_str "sessionId" r) as [s|], (col_str "remoteJid" r) as [j'|],
    (col_str "id" r) as [i'|]; simpl;
    rewrite ?eqb_eq_bool_decide, ?andb_true_r, ?andb_false_r;
    repeat case_bool_decide; simplify_eq; try done.
Qed.

Lemma find_ext {A} (P Q : A → bool) l :
  (∀ x, P x = Q x) → List.find P l = List.find Q l.
Proof. intros E. induction l as [|x l IH]; simpl; [done|]. by rewrite E, IH. Qed.

Lemma find_none_existsb {A} (P : A → bool) l :
  existsb P l = false → List.find P l = None.
Proof.
  induction l as [|x l IH]; simpl; [done|].
  destruct (P x); simpl; [done|]. apply IH.
Qed.

Lemma find_existsb {A} (P : A → bool) l r :
  List.find P l = Some r → existsb P l = true.
Proof.
  induction l as [|x l IH]; simpl; [done|].
  destruct (P x); simpl; [done|]. apply IH.
Qed.

Lemma findFirst_message sessionId key j i w :
  key_remoteJid key = Some j → key_id key = Some i →
  findFirst (where_message sessionId key) w
  = Ok (List.find (has_key (sessionId, j, i)) (rows w)) w.
Proof.
  intros Hj Hi. unfold findFirst. f_equal.
  apply find_ext. intros r. by apply matches_where_message.
Qed.

(** ** Events that name no stored message *)

Lemma for_of_cons {A} (x : A) xs body w w1 :
  body x w = Ok tt w1 → for_of (x :: xs) body w = for_of xs body w1.
Proof. intros H. simpl. unfold bind. by rewrite H. Qed.



(** ** Delete by an empty list of keys *)

(** C10.  On the delete-by-keys shape with no key, reading the first
    key's chat identifier throws before any delete statement is issued:
    the table is untouched and the call publishes the error outcome of
    [messages.delete], not the success outcome describing the request. *)
Theorem del_empty_keys_reports_error sessionId w :
  del_body sessionId (DelKeys []) w
    = Throw (TypeError_read "undefined" "remoteJid") w
  ∧ ∃ w', del sessionId (DelKeys []) w = Ok tt w'
          ∧ rows w' = rows w
          ∧ emitted w'
            = emitted w
              ++ [mkOutcome "messages.delete" sessionId None (Some "error")
                    (Some "An error occured during messages delete: Cannot read properties of undefined (reading 'remoteJid')")].
Proof.
  split; [reflexivity|].
  exists (published
            (error_outcome "messages.delete" "messages delete" sessionId
               (TypeError_read "undefined" "remoteJid"))
            (logged LError "An error occured during messages delete" w)).
  repeat split.
Qed.

(** ** Partial updates of one row *)

Lemma alter_first_find {A} (P : A → bool) (f : A → A) l r :
  List.find P l = Some r → P (f r) = true →
  List.find P (alter_first P f l) = Some (f r).
Proof.
  induction l as [|x l IH]; simpl; [done|].
  destruct (P x) eqn:Hx; simpl.
  - intros [= ->] Hf. by rewrite Hf.
  - intros Hl Hf. rewrite Hx. by apply IH.
Qed.

Lemma alter_first_length {A} (P : A → bool) (f : A → A) l :
  length (alter_first P f l) = length l.
Proof. induction l as [|x l IH]; simpl; [done|]. destruct (P x); simpl; by rewrite ?IH. Qed.

Lemma alter_first_count {A} (P : A → bool) (f : A → A) l :
  (∀ x, P x = true → P (f x) = true) →
  length (List.filter P (alter_first P f l)) = length (List.filter P l).
Proof.
  intros Hf. induction l as [|x l IH]; simpl; [done|].
  destruct (P x) eqn:Hx; simpl.
  - by rewrite (Hf x Hx).
  - by rewrite Hx.
Qed.

Lemma find_some_holds {A} (P : A → bool) l r : List.find P l = Some r → P r = true.
Proof.
  induction l as [|x l IH]; simpl; [done|].
  destruct (P x) eqn:Hx; [by intros [= <-]|done].
Qed.

Lemma not_key_column f :
  f ∉ key_columns →
  f ≠ "pkId" ∧ f ≠ "sessionId" ∧ f ≠ "remoteJid" ∧ f ≠ "id".
Proof. unfold key_columns. rewrite !not_elem_of_cons. tauto. Qed.

(** Writing one payload column keeps the composite key of the row. *)
Lemma key_of_insert_payload f v (r : Obj) :
  f ∉ key_columns → key_of (<[f:=v]> r) = key_of r.
Proof.
  intros (_ & Hs & Hj & Hi)%not_key_column. unfold key_of, col_str.
  by rewrite !lookup_insert_ne.
Qed.

Lemma touches_key_singleton f v :
  f ∉ key_columns → touches_key ({[f := v]} : Obj) = false.
Proof.
  intros (Hp & Hs & Hj & Hi)%not_key_column. unfold touches_key, key_columns.
  simpl. by rewrite !lookup_singleton_ne.
Qed.

(** A partial update that writes the single payload column [f] of an
    existing row succeeds and replaces that column in place. *)
Lemma update_unique_payload k f v r w :
  f ∉ key_columns → coerce v = v →
  List.find (has_key k) (rows w) = Some r →
  update_unique k (transformPrisma {[f := v]}) w
  = Ok tt (with_rows (alter_first (has_key k) (λ _, <[f:=v]> r) (rows w)) w).
Proof.
  intros Hf Hv Hr. unfold update_unique, transformPrisma.
  rewrite map_fmap_singleton, Hv, Hr, touches_key_singleton by done.
  by rewrite <-insert_union_singleton_l.
Qed.

(** ** Lists with one entry per owner

    Receipts are owned by a user, reactions by an author; both handlers
    drop the entries of one owner with [filter] and push one entry. *)

Section Owned.

Context {A : Type} (owner : A → string).

Lemma find_owner_none u l :
  List.find (λ x, String.eqb (owner x) u) l = None ↔ u ∉ owner <$> l.
Proof.
  induction l as [|m l IH]; csimpl.
  - split; [intros _; apply not_elem_of_nil|done].
  - rewrite not_elem_of_cons. destruct (String.eqb_spec (owner m) u) as [E|Hne].
    + split; [done|]. by intros [? _].
    + rewrite IH. split; [by intros ?; split|by intros [_ ?]].
Qed.

Lemma disowned_absent u l : u ∉ owner <$> disowned owner u l.
Proof.
  induction l as [|m l IH]; csimpl; [apply not_elem_of_nil|].
  destruct (String.eqb_spec (owner m) u) as [E|Hne]; csimpl; [done|].
  rewrite not_elem_of_cons. by split.
Qed.










End Owned.

(** ** Receipts *)

Lemma receipts_or_empty_in r stored w :
  receipts_in r stored → receipts_or_empty (r !! "userReceipt") w = Ok stored w.
Proof.
  intros [->|[Hf ->]]; [done|]. unfold receipts_or_empty.
  destruct (r !! "userReceipt") as [[]|]; simpl in *; try done; by rewrite ?Hf.
Qed.

Lemma merge_receipt_eq stored receipt :
  merge_receipt stored receipt
  = if bool_decide (userJid receipt ∈ userJid <$> stored)
    then disowned userJid (userJid receipt) stored ++ [receipt]
    else stored ++ [receipt].
Proof.
  unfold merge_receipt.
  destruct (List.find _ stored) eqn:Hfind.
  - rewrite bool_decide_eq_true_2; [done|].
    destruct (decide (userJid receipt ∈ userJid <$> stored)) as [|Hn]; [done|].
    apply (find_owner_none userJid) in Hn. congruence.
  - apply (find_owner_none userJid) in Hfind. by rewrite bool_decide_eq_false_2.
Qed.






Lemma payload_column_userReceipt : "userReceipt" ∉ key_columns.
Proof. apply (bool_decide_unpack _). by vm_compute. Qed.

Lemma payload_column_reactions : "reactions" ∉ key_columns.
Proof. apply (bool_decide_unpack _). by vm_compute. Qed.

Lemma updateReceipt_body_found sessionId key j i receipt r stored w :
  key_remoteJid key = Some j → key_id key = Some i →
  List.find (has_key (sessionId, j, i)) (rows w) = Some r →
  receipts_in r stored →
  updateReceipt_body sessionId key receipt w
  = Ok tt
      (published
         (mkOutcome "message-receipt.update" sessionId (Some (PReceipt key receipt)) None None)
         (with_rows
            (alter_first (has_key (sessionId, j, i))
               (λ _, <["userReceipt" := VReceipts (merge_receipt stored receipt)]> r)
               (rows w)) w)).
Proof.
  intros Hj Hi Hr Hin. unfold updateReceipt_body, bind.
  rewrite (findFirst_message _ _ _ _ _ Hj Hi), Hr.
  rewrite (receipts_or_empty_in _ _ _ Hin), Hj, Hi. cbn [where_unique ret].
  by rewrite (update_unique_payload _ _ _ r) by auto using payload_column_userReceipt.
Qed.



(** ** Reactions *)

Lemma reactions_or_empty_in r stored w :
  reactions_in r stored → reactions_or_empty (r !! "reactions") w = Ok stored w.
Proof.
  intros [->|[Hf ->]]; [done|]. unfold reactions_or_empty.
  destruct (r !! "reactions") as [[]|]; simpl in *; try done; by rewrite ?Hf.
Qed.

Lemma merge_reaction_eq stored reaction :
  merge_reaction stored reaction
  = disowned author (author reaction) stored
    ++ (if has_text reaction then [reaction] else []).
Proof.
  unfold merge_reaction, has_text, disowned, author.
  destruct (reaction_text reaction) as [s|]; simpl.
  - destruct (negb _); [done|by rewrite app_nil_r].
  - by rewrite app_nil_r.
Qed.




Lemma updateReaction_body_found sessionId key j i reaction r stored w :
  key_remoteJid key = Some j → key_id key = Some i →
  List.find (has_key (sessionId, j, i)) (rows w) = Some r →
  reactions_in r stored →
  updateReaction_body sessionId key reaction w
  = Ok tt
      (published
         (mkOutcome "messages.reaction" sessionId (Some (PReaction key reaction)) None None)
         (with_rows
            (alter_first (has_key (sessionId, j, i))
               (λ _, <["reactions" := VReactions (merge_reaction stored reaction)]> r)
               (rows w)) w)).
Proof.
  intros Hj Hi Hr Hin. unfold updateReaction_body, bind.
  rewrite (findFirst_message _ _ _ _ _ Hj Hi), Hr.
  rewrite (reactions_or_empty_in _ _ _ Hin), Hj, Hi. cbn [where_unique ret].
  by rewrite (update_unique_payload _ _ _ r) by auto using payload_column_reactions.
Qed.







(** ** What a program publishes *)

Create HintDb quiet.

Lemma quiet_ret {A} (a : A) : quiet (ret a).
Proof. by intros w. Qed.

Lemma quiet_throw {A} e : quiet (@throw A e).
Proof. by intros w. Qed.

Lemma quiet_bind {A B} (m : M A) (k : A → M B) :
  quiet m → (∀ a, quiet (k a)) → quiet (bind m k).
Proof.
  intros Hm Hk w. unfold bind. specialize (Hm w).
  destruct (m w) as [a w'|e w']; simpl in *; [|done].
  by rewrite (Hk a w').
Qed.

Lemma quiet_transaction {A} (m : M A) : quiet m → quiet (transaction m).
Proof.
  intros Hm w. unfold transaction. specialize (Hm w).
  by destruct (m w) as [a w'|e w'].
Qed.

Lemma quiet_for_of {A} (xs : list A) body :
  (∀ x, quiet (body x)) → quiet (for_of xs body).
Proof.
  intros Hb. induction xs as [|x xs IH]; simpl.
  - apply quiet_ret.
  - by apply quiet_bind.
Qed.

Lemma quiet_map_of {A B} (xs : list A) (f : A → M B) :
  (∀ x, quiet (f x)) → quiet (map_of xs f).
Proof.
  intros Hf. induction xs as [|x xs IH]; simpl.
  - apply quiet_ret.
  - apply quiet_bind; [done|]. intros y.
    apply quiet_bind; [done|]. intros ys. apply quiet_ret.
Qed.

Lemma quiet_findFirst q : quiet (findFirst q).
Proof. by intros w. Qed.

Lemma quiet_deleteMany q : quiet (deleteMany q).
Proof. intros w. unfold deleteMany. by destruct (forallb _ q). Qed.

Lemma quiet_where_unique s j i : quiet (where_unique s j i).
Proof. intros w. by destruct j, i. Qed.

Lemma quiet_create data : quiet (create data).
Proof. intros w. unfold create. by repeat case_match. Qed.

Lemma quiet_createMany data : quiet (createMany data).
Proof.
  intros w. unfold createMany.
  pose proof (quiet_for_of data create quiet_create w) as H.
  by destruct (for_of data create w).
Qed.

Lemma quiet_delete_unique k : quiet (delete_unique k).
Proof. intros w. unfold delete_unique. by case_match. Qed.

Lemma quiet_update_unique k data : quiet (update_unique k data).
Proof. intros w. unfold update_unique. by repeat case_match. Qed.

Lemma quiet_upsert_unique k c u : quiet (upsert_unique k c u).
Proof.
  intros w. unfold upsert_unique.
  case_match; [apply quiet_update_unique|apply quiet_create].
Qed.

Lemma quiet_chat_count s j : quiet (chat_count s j).
Proof. by intros w. Qed.

Lemma quiet_read_key o prop : quiet (read_key o prop).
Proof. intros w. unfold read_key. by repeat case_match. Qed.

Lemma quiet_receipts_or_empty v : quiet (receipts_or_empty v).
Proof. intros w. unfold receipts_or_empty. by repeat case_match. Qed.

Lemma quiet_reactions_or_empty v : quiet (reactions_or_empty v).
Proof. intros w. unfold reactions_or_empty. by repeat case_match. Qed.

Lemma quiet_logger lvl text : quiet (logger lvl text).
Proof. by intros w. Qed.

Lemma quiet_bus_emit c : quiet (bus_emit c).
Proof. by intros w. Qed.

Lemma quiet_process_message s message : quiet (process_message s message).
Proof. apply quiet_bind; [apply quiet_read_key|]. intros k. apply quiet_ret. Qed.

#[export] Hint Resolve quiet_process_message quiet_ret quiet_throw quiet_transaction quiet_for_of
  quiet_map_of quiet_findFirst quiet_deleteMany quiet_where_unique quiet_create
  quiet_createMany quiet_delete_unique quiet_update_unique quiet_upsert_unique
  quiet_chat_count quiet_read_key quiet_receipts_or_empty
  quiet_reactions_or_empty quiet_logger quiet_bus_emit : quiet.

(** Decompose a program along its binds and branches. *)
Ltac quiet_solver :=
  repeat first
    [ progress intros
    | apply quiet_bind
    | match goal with
      | |- quiet (if ?b then _ else _) => destruct b
      | |- quiet (match ?x with _ => _ end) => destruct x
      end
    | solve [auto with quiet] ].

Lemma total_ret {A} (a : A) : total (ret a).
Proof. intros w. by eexists _, _. Qed.

Lemma total_bind {A B} (m : M A) (k : A → M B) :
  total m → (∀ a, total (k a)) → total (bind m k).
Proof.
  intros Hm Hk w. unfold bind. destruct (Hm w) as (a & w' & ->). apply Hk.
Qed.








Lemma emits_on_ok_emitEvent (P : Outcome → Prop) name s data status message :
  P (mkOutcome name s data status message) →
  emits_on_ok P (emitEvent name s data status message).
Proof. intros HP w. simpl. by eexists. Qed.

Lemma emits_on_ok_after {A B} P (m : M A) (k : A → M B) :
  quiet m → (∀ a, emits_on_ok P (k a)) → emits_on_ok P (bind m k).
Proof.
  intros Hm Hk w. unfold bind. specialize (Hm w).
  destruct (m w) as [a w'|e w']; simpl in *; [|done].
  specialize (Hk a w'). destruct (k a w') as [b w''|e w''].
  - destruct Hk as (o & E & HP). exists o. by rewrite E, Hm.
  - by rewrite Hk.
Qed.

Lemma emits_on_ok_before {A B} P (m : M A) (k : A → M B) :
  emits_on_ok P m → (∀ a, quiet (k a)) → (∀ a, total (k a)) →
  emits_on_ok P (bind m k).
Proof.
  intros Hm Hq Ht w. unfold bind. specialize (Hm w).
  destruct (m w) as [a w'|e w']; [|done].
  destruct (Ht a w') as (b & w'' & E). specialize (Hq a w').
  rewrite E in *. simpl in Hq. destruct Hm as (o & Eo & HP).
  exists o. by rewrite Hq.
Qed.

Lemma emits_on_ok_transaction {A} P (m : M A) :
  emits_on_ok P m → emits_on_ok P (transaction m).
Proof.
  intros Hm w. unfold transaction. specialize (Hm w).
  by destruct (m w) as [a w'|e w'].
Qed.

(** A guarded body publishes exactly one outcome: its own when it
    returns, the error outcome of the catch block when it throws. *)
Lemma try_catch_one_outcome P (body : M unit) name logText op s w :
  emits_on_ok P body →
  ∃ w' o, try_catch body (report name logText op s) w = Ok tt w'
          ∧ emitted w' = emitted w ++ [o]
          ∧ match body w with
            | Ok _ w1 => P o ∧ rows w' = rows w1
            | Throw e w1 => o = error_outcome name op s e ∧ rows w' = rows w1
            end.
Proof.
  intros Hb. unfold try_catch. specialize (Hb w).
  destruct (body w) as [[] w1|e w1].
  - destruct Hb as (o & E & HP). by exists w1, o.
  - rewrite report_eq. eexists _, _. split; [done|].
    cbn [emitted published logged rows]. by rewrite Hb.
Qed.

(** ** Inserts *)

Lemma key_of_insert_pk v (r : Obj) : key_of (<["pkId":=v]> r) = key_of r.
Proof. unfold key_of, col_str. by rewrite !lookup_insert_ne. Qed.

Lemma stored_as_key d st : stored_as d st → key_of st = key_of d.
Proof. intros [->|(_ & p & ->)]; [done|apply key_of_insert_pk]. Qed.

Lemma create_ok d w w' :
  create d w = Ok tt w' →
  ∃ st, rows w' = rows w ++ [st] ∧ stored_as d st ∧ is_Some (key_of d)
        ∧ existsb (has_key (default ("", "", "") (key_of d))) (rows w) = false.
Proof.
  unfold create. destruct (key_of d) as [k|] eqn:Hk; [|done].
  destruct (existsb (has_key k) (rows w)) eqn:Hex; [done|].
  destruct (d !! "pkId") as [v|] eqn:Hpk.
  - destruct v as [| | n | | | | | | |]; try done.
    destruct (existsb (has_pk n) (rows w)); [done|].
    intros [= <-]. exists d. repeat split; [by left|by eexists|done].
  - intros [= <-]. eexists. repeat split; [|by eexists|done].
    right. split; [done|]. by eexists.
Qed.

Lemma create_throw d w e w' : create d w = Throw e w' → w' = w.
Proof. unfold create. repeat case_match; congruence. Qed.

Lemma for_of_create_ok ds : ∀ w w',
  for_of ds create w = Ok tt w' →
  ∃ sts, rows w' = rows w ++ sts ∧ Forall2 stored_as ds sts.
Proof.
  induction ds as [|d ds IH]; intros w w'; simpl.
  - intros [= <-]. exists []. by rewrite app_nil_r.
  - unfold bind. destruct (create d w) as [[] w1|e w1] eqn:Hc; [|done].
    intros Hrest. apply create_ok in Hc as (st & E1 & Hst & _).
    apply IH in Hrest as (sts & E2 & Hsts). exists (st :: sts).
    split; [|by constructor]. by rewrite E2, E1, <-app_assoc.
Qed.

Lemma createMany_ok ds w w' :
  createMany ds w = Ok tt w' →
  ∃ sts, rows w' = rows w ++ sts ∧ Forall2 stored_as ds sts.
Proof.
  unfold createMany. destruct (for_of ds create w) as [[] w1|e w1] eqn:H; [|done].
  intros [= <-]. by apply for_of_create_ok.
Qed.

Lemma createMany_throw ds w e w' : createMany ds w = Throw e w' → rows w' = rows w.
Proof.
  unfold createMany. destruct (for_of ds create w) as [[] w1|e1 w1]; [done|].
  by intros [= _ <-].
Qed.

(** ** The history bulk loader *)

Lemma read_key_ok o prop w k w' :
  read_key o prop w = Ok k w' → w' = w ∧ message_key o = Some k.
Proof.
  unfold read_key, message_key.
  destruct (o !! "key") as [[]|]; simpl; intros [= <- <-]; done.
Qed.

Lemma read_key_throw o prop w e w' : read_key o prop w = Throw e w' → w' = w.
Proof.
  unfold read_key. destruct (o !! "key") as [[]|]; simpl; intros [= _ <-]; done.
Qed.

Lemma process_messages_spec s messages : ∀ w,
  match map_of messages (process_message s) w with
  | Ok ps w' => w' = w ∧ Forall2 (processed_from s) messages ps
  | Throw e w' => w' = w
  end.
Proof.
  induction messages as [|m ms IH]; intros w; simpl; [done|].
  unfold bind at 1. unfold process_message at 1. unfold bind at 1.
  destruct (read_key m "remoteJid" w) as [k w1|e w1] eqn:Hk.
  - apply read_key_ok in Hk as [-> Hk]. cbn [ret].
    unfold bind. specialize (IH w).
    destruct (map_of ms _ w) as [ps w2|e w2]; [|done].
    destruct IH as [-> Hps]. cbn [ret]. split; [done|].
    constructor; [by exists k|done].
  - by apply read_key_throw in Hk.
Qed.

(** What the transaction body of [set] does to the table and to the
    outcome channel. *)
Lemma set_body_spec s (messages : list Obj) (isLatest : bool) w :
  let base := if isLatest then List.filter (λ r, negb (in_session s r)) (rows w)
              else rows w in
  match set_body s messages isLatest w with
  | Ok _ w' =>
      ∃ ps stored,
        emitted w' = emitted w ++ [set_success s ps]
        ∧ rows w' = base ++ stored
        ∧ Forall2 (processed_from s) messages ps
        ∧ Forall2 stored_as ps stored
  | Throw e w' => emitted w' = emitted w
  end.
Proof.
  intros base. unfold set_body.
  set (w0 := if isLatest then with_rows base w else w).
  assert (Hdel : (if isLatest then deleteMany (where_eq "sessionId" (Some s))
                  else ret tt) w = Ok tt w0).
  { unfold w0, base. destruct isLatest; [|done]. reflexivity. }
  assert (Hw0 : emitted w0 = emitted w ∧ rows w0 = base).
  { unfold w0, base. by destruct isLatest. }
  destruct Hw0 as [He0 Hr0].
  unfold bind at 1. rewrite Hdel. unfold bind at 1.
  pose proof (process_messages_spec s messages w0) as Hps.
  destruct (map_of messages _ w0) as [ps w1|e w1]; [|by subst w1].
  destruct Hps as [-> Hps]. unfold bind.
  destruct (createMany ps w0) as [[] w2|e w2] eqn:Hc.
  - pose proof (quiet_createMany ps w0) as Hq. rewrite Hc in Hq. simpl in Hq.
    apply createMany_ok in Hc as (stored & Hrows & Hst).
    exists ps, stored. cbn [emitEvent emitted rows].
    by rewrite Hq, He0, Hrows, Hr0.
  - pose proof (quiet_createMany ps w0) as Hq. rewrite Hc in Hq. simpl in Hq.
    by rewrite Hq.
Qed.

Lemma in_session_col s r : col_str "sessionId" r = Some s → in_session s r = true.
Proof.
  intros H. unfold in_session, matches. simpl. rewrite H. simpl.
  by rewrite String.eqb_refl.
Qed.

Lemma processed_from_session s m p :
  processed_from s m p → col_str "sessionId" p = Some s.
Proof.
  intros (k & _ & ->). unfold with_key_columns, col_str. simpl.
  by rewrite lookup_insert_eq.
Qed.

Lemma stored_as_session d st s :
  stored_as d st → col_str "sessionId" d = Some s → col_str "sessionId" st = Some s.
Proof.
  intros [->|(_ & p & ->)]; [done|]. unfold col_str.
  by rewrite lookup_insert_ne.
Qed.

Lemma stored_in_session s : ∀ messages ps stored,
  Forall2 (processed_from s) messages ps → Forall2 stored_as ps stored →
  session_rows s stored = stored ∧ length stored = length messages.
Proof.
  induction messages as [|m ms IH]; intros ps stored Hps Hst.
  - apply Forall2_nil_inv_l in Hps as ->. by apply Forall2_nil_inv_l in Hst as ->.
  - apply Forall2_cons_inv_l in Hps as (p & ps' & Hp & Hps & ->).
    apply Forall2_cons_inv_l in Hst as (st & sts & Hs & Hsts & ->).
    destruct (IH ps' sts Hps Hsts) as [E L]. unfold session_rows in *. simpl.
    rewrite in_session_col
      by (eapply stored_as_session; [done|by eapply processed_from_session]).
    by rewrite E, L.
Qed.

Lemma session_rows_cleared s t :
  session_rows s (List.filter (λ r, negb (in_session s r)) t) = [].
Proof.
  unfold session_rows. induction t as [|r t IH]; simpl; [done|].
  destruct (in_session s r) eqn:E; simpl; [done|]. by rewrite E.
Qed.

Lemma set_run s (messages : list Obj) (isLatest : bool) w :
  set s messages isLatest w
  = match transaction (set_body s messages isLatest) w with
    | Ok _ w1 => Ok tt (logged LInfo "Synced messages" w1)
    | Throw e w1 =>
        Ok tt (published (error_outcome "messages.upsert" "messages set" s e)
                 (logged LError "An error occured during messages set" w1))
    end.
Proof.
  unfold set, try_catch, bind.
  by destruct (transaction (set_body s messages isLatest) w) as [[] w1|e w1].
Qed.

(** On a storage that accepts every commit, [set_with] is [set]. *)
Lemma set_with_accepting s (messages : list Obj) (isLatest : bool) w :
  set_with (λ _, None) s messages isLatest w = set s messages isLatest w.
Proof.
  unfold set_with, set, try_catch, bind, transaction_with, transaction.
  by destruct (set_body s messages isLatest w).
Qed.

Lemma set_with_run commit s (messages : list Obj) (isLatest : bool) w :
  set_with commit s messages isLatest w
  = match transaction_with commit (set_body s messages isLatest) w with
    | Ok _ w1 => Ok tt (logged LInfo "Synced messages" w1)
    | Throw e w1 =>
        Ok tt (published (error_outcome "messages.upsert" "messages set" s e)
                 (logged LError "An error occured during messages set" w1))
    end.
Proof.
  unfold set_with, try_catch, bind.
  by destruct (transaction_with commit (set_body s messages isLatest) w) as [[] w1|e w1].
Qed.

(** C8, as the code has it.  Every call of [set] returns and publishes one
    outcome or two.  When the transaction callback fails, it is the error
    outcome alone, with status ["error"], no payload and the cause in its
    message, and the table is as before the call.  When the callback
    returns, it has inserted the rows it built and has already published
    the success outcome carrying them; if the storage then accepts the
    commit, that is the only outcome and the rows are stored; if the
    storage rejects the commit, the error outcome carrying the cause
    follows the success outcome of the same call, and the table is as
    before the call. *)
Theorem set_outcomes_follow_commit (commit : World → option Thrown) s
    (messages : list Obj) (isLatest : bool) w :
  ∃ w',
    set_with commit s messages isLatest w = Ok tt w'
    ∧ match set_body s messages isLatest w with
      | Throw e _ =>
          rows w' = rows w
          ∧ emitted w'
            = emitted w ++ [error_outcome "messages.upsert" "messages set" s e]
      | Ok _ w1 =>
          ∃ ps stored,
            Forall2 (processed_from s) messages ps
            ∧ Forall2 stored_as ps stored
            ∧ rows w1 = (if isLatest
                         then List.filter (λ r, negb (in_session s r)) (rows w)
                         else rows w) ++ stored
            ∧ match commit w1 with
              | None =>
                  rows w' = rows w1
                  ∧ emitted w' = emitted w ++ [set_success s ps]
              | Some e =>
                  rows w' = rows w
                  ∧ emitted w'
                    = emitted w
                      ++ [set_success s ps;
                          error_outcome "messages.upsert" "messages set" s e]
              end
      end.
Proof.
  rewrite set_with_run. unfold transaction_with.
  pose proof (set_body_spec s messages isLatest w) as Hb. simpl in Hb.
  destruct (set_body s messages isLatest w) as [[] w1|e w1].
  - destruct Hb as (ps & stored & He & Hr & Hps & Hst).
    destruct (commit w1) as [e|] eqn:Hc.
    + eexists. split; [done|]. exists ps, stored.
      split; [done|]. split; [done|]. split; [done|].
      cbn [rows emitted published logged with_rows].
      split; [done|]. by rewrite He, <-app_assoc.
    + eexists. split; [done|]. exists ps, stored.
      split; [done|]. split; [done|]. split; [done|]. done.
  - eexists. split; [done|]. cbn [emitted rows published logged with_rows].
    by rewrite Hb.
Qed.

(** C8, counterexample.  On a storage that rejects the commit, one call of
    [set] with one message publishes the success outcome, from inside the
    transaction callback, and then the error outcome, from the catch
    block: two outcomes for one call, and no row stored. *)
Lemma set_rejected_commit_publishes_both :
  let rejects : World → option Thrown :=
    λ _, Some (ErrorObj "Transaction already closed") in
  let w' := world_of (set_with rejects "s1" [text_message chat "A" 1] true
                        empty_world) in
  map (λ o, (ev_name o, bool_decide (is_Some (ev_payload o)), ev_status o))
      (emitted w')
  = [("messages.upsert", true, None); ("messages.upsert", false, Some "error")]
  ∧ rows w' = []
  ∧ ¬ ∃ o, emitted w' = emitted empty_world ++ [o].
Proof.
  intros rejects w'. split; [by vm_compute|]. split; [by vm_compute|].
  intros [o H]. apply (f_equal length) in H. by vm_compute in H.
Qed.

(** C1.  A call of [set] with [isLatest] and a batch of N messages either
    commits, and then the table holds exactly N rows of the session, the
    inserted ones, all earlier rows of the session being gone and the rows
    of other sessions kept; or fails, and then the table is exactly as
    before the call.  In particular a bulk insert that fails undoes the
    delete that preceded it. *)
Theorem set_full_resync_is_atomic s (messages : list Obj) w :
  let cleared := List.filter (λ r, negb (in_session s r)) (rows w) in
  ∃ w',
    set s messages true w = Ok tt w'
    ∧ match transaction (set_body s messages true) w with
      | Ok _ _ =>
          length (session_rows s (rows w')) = length messages
          ∧ ∃ stored, rows w' = cleared ++ stored
                      ∧ session_rows s (rows w') = stored
      | Throw _ _ => rows w' = rows w
      end
    ∧ (∀ ps e w1,
          map_of messages (process_message s) (with_rows cleared w)
            = Ok ps (with_rows cleared w) →
          createMany ps (with_rows cleared w) = Throw e w1 →
          rows w' = rows w).
Proof.
  intros cleared. rewrite set_run. unfold transaction.
  pose proof (set_body_spec s messages true w) as Hb. simpl in Hb.
  destruct (set_body s messages true w) as [[] w1|e w1] eqn:Hrun.
  - destruct Hb as (ps & stored & He & Hr & Hps & Hst).
    eexists. split; [done|]. cbn [rows logged].
    destruct (stored_in_session s messages ps stored Hps Hst) as [Hs Hl].
    assert (Hsess : session_rows s (rows w1) = stored).
    { rewrite Hr. unfold session_rows. rewrite List.filter_app.
      fold (session_rows s (List.filter (λ r, negb (in_session s r)) (rows w))).
      rewrite session_rows_cleared. exact Hs. }
    split; [split|].
    + by rewrite Hsess.
    + by exists stored.
    + intros ps' e w2 Hmap Hc. exfalso.
      unfold set_body, bind in Hrun. cbv beta iota in Hrun.
      change (deleteMany (where_eq "sessionId" (Some s)) w)
        with (Ok tt (with_rows cleared w)) in Hrun.
      cbv beta iota in Hrun. by rewrite Hmap, Hc in Hrun.
  - eexists. split; [done|]. cbn [rows published logged with_rows]. done.
Qed.

(** ** The upsert loop *)

Lemma upsert_body_emits jn tn s type message :
  emits_on_ok (λ o, o = upsert_success s message) (upsert_body jn tn s type message).
Proof.
  unfold upsert_body.
  apply emits_on_ok_after; [auto with quiet|]. intros key.
  apply emits_on_ok_after; [auto with quiet|]. intros k.
  apply emits_on_ok_after; [auto with quiet|]. intros _.
  apply emits_on_ok_before.
  - by apply emits_on_ok_emitEvent.
  - intros _. quiet_solver.
  - intros _. apply total_bind; [by intros w; eexists _, _|].
    intros n w. destruct (_ && _); by eexists _, _.
Qed.

Lemma upsert_tagged jn tn s type (messages : list Obj) :
  type = "append" ∨ type = "notify" →
  upsert jn tn s messages type = for_of messages (upsert_step jn tn s type).
Proof. by intros [->| ->]. Qed.

Lemma upsert_step_one jn tn s type message w :
  ∃ w' o, upsert_step jn tn s type message w = Ok tt w'
          ∧ emitted w' = emitted w ++ [o]
          ∧ upsert_outcome s message o.
Proof.
  destruct (try_catch_one_outcome _ _ "messages.upsert"
              "An error occured during messages upsert" "messages upsert" s w
              (upsert_body_emits jn tn s type message)) as (w' & o & E & He & Hcase).
  exists w', o. split; [done|]. split; [done|].
  destruct (upsert_body jn tn s type message w) as [[] w1|e w1].
  - left. by destruct Hcase.
  - right. exists e. by destruct Hcase.
Qed.

(** C7.  An upsert batch tagged [append] or [notify] is processed message
    by message, in order: whatever happens to a message, the loop goes on
    with the rest of the batch from the state that message left; a message
    whose processing throws yields the error outcome of [messages.upsert];
    and the batch as a whole publishes exactly one outcome per message, in
    the order of the batch. *)
Theorem upsert_isolates_failures (jidNormalizedUser : option string → string)
    (toNumber : option Val → Val) s type (messages : list Obj) w :
  type = "append" ∨ type = "notify" →
  (∃ w' outs,
      upsert jidNormalizedUser toNumber s messages type w = Ok tt w'
      ∧ emitted w' = emitted w ++ outs
      ∧ Forall2 (upsert_outcome s) messages outs)
  ∧ (∀ m rest e w1,
        messages = m :: rest →
        upsert_body jidNormalizedUser toNumber s type m w = Throw e w1 →
        upsert jidNormalizedUser toNumber s messages type w
        = upsert jidNormalizedUser toNumber s rest type
            (published (error_outcome "messages.upsert" "messages upsert" s e)
               (logged LError "An error occured during messages upsert" w1)))
  ∧ (∀ m rest w1,
        messages = m :: rest →
        upsert_body jidNormalizedUser toNumber s type m w = Ok tt w1 →
        upsert jidNormalizedUser toNumber s messages type w
        = upsert jidNormalizedUser toNumber s rest type w1).
Proof.
  intros Htype. split; [|split].
  - rewrite upsert_tagged by done. revert w.
    induction messages as [|m ms IH]; intros w.
    + exists w, []. by rewrite app_nil_r.
    + destruct (upsert_step_one jidNormalizedUser toNumber s type m w)
        as (w1 & o & E1 & He1 & Ho).
      destruct (IH w1) as (w' & outs & E & He & Houts).
      exists w', (o :: outs). split; [|split].
      * by rewrite (for_of_cons _ _ _ _ _ E1).
      * by rewrite He, He1, <-app_assoc.
      * by constructor.
  - intros m rest e w1 -> Hthrow. rewrite !upsert_tagged by done.
    apply for_of_cons. unfold upsert_step, try_catch. by rewrite Hthrow.
  - intros m rest w1 -> Hok. rewrite !upsert_tagged by done.
    apply for_of_cons. unfold upsert_step, try_catch. by rewrite Hok.
Qed.

(** ** Names and shapes of the outcomes *)





(** ** Upsert by composite key *)

Lemma touches_key_false (d : Obj) :
  touches_key d = false →
  d !! "pkId" = None ∧ d !! "sessionId" = None
  ∧ d !! "remoteJid" = None ∧ d !! "id" = None.
Proof.
  unfold touches_key, key_columns. simpl.
  rewrite !orb_false_iff, !bool_decide_eq_false, <-!eq_None_not_Some.
  tauto.
Qed.

Lemma touches_key_transformPrisma (m : Obj) :
  touches_key (transformPrisma m) = touches_key m.
Proof.
  unfold touches_key, transformPrisma, key_columns. simpl.
  rewrite !lookup_fmap.
  by destruct (m !! "pkId"), (m !! "sessionId"), (m !! "remoteJid"), (m !! "id").
Qed.

Lemma key_of_union_payload (d r : Obj) :
  touches_key d = false → key_of (d ∪ r) = key_of r.
Proof.
  intros (_ & Hs & Hj & Hi)%touches_key_false. unfold key_of, col_str.
  by rewrite !lookup_union_r.
Qed.

Lemma key_of_with_key_columns s j i (d : Obj) :
  key_of (with_key_columns s (Some j) (Some i) d) = Some (s, j, i).
Proof.
  unfold key_of, col_str, with_key_columns. simpl.
  rewrite lookup_insert_eq.
  rewrite (lookup_insert_ne _ "sessionId" "remoteJid") by done.
  rewrite (lookup_insert_ne _ "id" "remoteJid") by done.
  rewrite lookup_insert_eq.
  rewrite (lookup_insert_ne _ "sessionId" "id") by done.
  by rewrite lookup_insert_eq.
Qed.

Lemma pk_of_with_key_columns s j i (d : Obj) :
  with_key_columns s (Some j) (Some i) d !! "pkId" = d !! "pkId".
Proof. unfold with_key_columns. simpl. by rewrite !lookup_insert_ne. Qed.

Lemma find_head_filter {A} (P : A → bool) l : List.find P l = head (List.filter P l).
Proof. induction l as [|x l IH]; simpl; [done|]. by destruct (P x). Qed.

Lemma existsb_find_none {A} (P : A → bool) l :
  List.find P l = None → existsb P l = false.
Proof.
  induction l as [|x l IH]; simpl; [done|].
  destruct (P x); [done|]. apply IH.
Qed.

Lemma filter_alter_first {A} (P : A → bool) f l r :
  List.filter P l = [r] → P (f r) = true →
  List.filter P (alter_first P f l) = [f r].
Proof.
  intros Hl Hf. induction l as [|x l IH]; simpl in *; [done|].
  destruct (P x) eqn:Hx; simpl.
  - injection Hl as -> Hl. by rewrite Hf, Hl.
  - rewrite Hx. by apply IH.
Qed.

Lemma alter_first_same {A} (P : A → bool) l r :
  List.find P l = Some r → alter_first P (λ _, r) l = l.
Proof.
  induction l as [|x l IH]; simpl; [done|].
  destruct (P x); [by intros [= ->]|]. intros H. by rewrite IH.
Qed.

Lemma upsert_unique_run s jid i (message : Obj) w :
  touches_key message = false →
  ∃ w', upsert_unique (s, jid, i)
          (with_key_columns s (Some jid) (Some i) (transformPrisma message))
          (transformPrisma message) w = Ok tt w'
        ∧ rows w' = upserted s jid i message w.
Proof.
  intros Ht. unfold upsert_unique, upserted.
  destruct (List.find (has_key (s, jid, i)) (rows w)) as [r|] eqn:Hf.
  - rewrite (find_existsb _ _ _ Hf). unfold update_unique.
    rewrite Hf, touches_key_transformPrisma, Ht. by eexists.
  - rewrite (existsb_find_none _ _ Hf). unfold create.
    rewrite key_of_with_key_columns, (existsb_find_none _ _ Hf).
    rewrite pk_of_with_key_columns. unfold transformPrisma at 1.
    rewrite lookup_fmap. destruct (touches_key_false _ Ht) as (-> & _).
    by eexists.
Qed.

Lemma upsert_one_run jn tn s type (message : Obj) key jid i w :
  type = "append" ∨ type = "notify" →
  message !! "key" = Some (VKey key) →
  jn (key_remoteJid key) = jid → key_id key = Some i →
  touches_key message = false →
  ∃ w', upsert jn tn s [message] type w = Ok tt w'
        ∧ rows w' = upserted s jid i message w.
Proof.
  intros Htype Hkey Hjid Hid Ht. rewrite upsert_tagged by done.
  destruct (upsert_unique_run s jid i message w Ht) as (w1 & Hrun & Hrows).
  cbn [for_of]. unfold upsert_step, bind, try_catch, upsert_body, bind, read_key.
  rewrite Hkey. cbn [ret]. rewrite Hjid, Hid. cbn [where_unique ret].
  rewrite Hrun. cbn [emitEvent chat_count].
  destruct (_ && _); cbn [bus_emit ret]; eexists; (split; [done|]); exact Hrows.
Qed.

Lemma upserted_one_row s jid i (message : Obj) w :
  touches_key message = false →
  (length (List.filter (has_key (s, jid, i)) (rows w)) ≤ 1)%nat →
  ∃ r, List.filter (has_key (s, jid, i)) (upserted s jid i message w) = [r]
       ∧ transformPrisma message ∪ r = r.
Proof.
  intros Ht Hle. unfold upserted. rewrite find_head_filter.
  assert (Htd : touches_key (transformPrisma message) = false)
    by by rewrite touches_key_transformPrisma.
  destruct (List.filter (has_key (s, jid, i)) (rows w)) as [|r0 [|r1 rest]] eqn:Hfil;
    simpl in *; [| |lia].
  - eexists. split.
    + rewrite List.filter_app, Hfil. simpl. unfold has_key at 1.
      by rewrite key_of_insert_pk, key_of_with_key_columns, bool_decide_eq_true_2.
    + apply map_subseteq_union.
      destruct (touches_key_false _ Htd) as (Hpk & Hs & Hj & Hi).
      unfold with_key_columns. simpl.
      etrans; [|apply insert_subseteq; by rewrite !lookup_insert_ne].
      etrans; [|apply insert_subseteq; by rewrite !lookup_insert_ne].
      etrans; [|apply insert_subseteq; by rewrite !lookup_insert_ne].
      by apply insert_subseteq.
  - exists (transformPrisma message ∪ r0). split.
    + apply (filter_alter_first _ (λ _, transformPrisma message ∪ r0) _ r0); [done|].
      unfold has_key. rewrite key_of_union_payload by done.
      assert (Hin : In r0 (List.filter (has_key (s, jid, i)) (rows w)))
        by (rewrite Hfil; by left).
      by apply List.filter_In in Hin as [_ Hin].
    + by rewrite (assoc_L (∪)), (idemp_L (∪)).
Qed.

(** C2.  Two upsert events for the same composite key (sessionId,
    remoteJid, id) leave exactly one row with that key.  The second
    application updates in place the row the first one left: every field
    the second message carries has the second message's value, the other
    fields are as the first application left them, and applying the same
    event twice changes nothing the second time. *)
Theorem upsert_twice_leaves_one_row (jidNormalizedUser : option string → string)
    (toNumber : option Val → Val) s type (m1 m2 : Obj) key1 key2 jid i w :
  type = "append" ∨ type = "notify" →
  m1 !! "key" = Some (VKey key1) →
  m2 !! "key" = Some (VKey key2) →
  jidNormalizedUser (key_remoteJid key1) = jid →
  jidNormalizedUser (key_remoteJid key2) = jid →
  key_id key1 = Some i →
  key_id key2 = Some i →
  touches_key m1 = false →
  touches_key m2 = false →
  (length (List.filter (has_key (s, jid, i)) (rows w)) ≤ 1)%nat →
  ∃ w1 w2 r1,
    upsert jidNormalizedUser toNumber s [m1] type w = Ok tt w1
    ∧ upsert jidNormalizedUser toNumber s [m2] type w1 = Ok tt w2
    ∧ List.filter (has_key (s, jid, i)) (rows w1) = [r1]
    ∧ List.filter (has_key (s, jid, i)) (rows w2) = [transformPrisma m2 ∪ r1]
    ∧ (∀ f v, transformPrisma m2 !! f = Some v →
              (transformPrisma m2 ∪ r1) !! f = Some v)
    ∧ (∀ f, transformPrisma m2 !! f = None →
            (transformPrisma m2 ∪ r1) !! f = r1 !! f)
    ∧ (m1 = m2 → rows w2 = rows w1).
Proof.
  intros Htype Hk1 Hk2 Hj1 Hj2 Hi1 Hi2 Ht1 Ht2 Hle.
  destruct (upsert_one_run jidNormalizedUser toNumber s type m1 key1 jid i w
              Htype Hk1 Hj1 Hi1 Ht1) as (w1 & Hrun1 & Hrows1).
  destruct (upsert_one_run jidNormalizedUser toNumber s type m2 key2 jid i w1
              Htype Hk2 Hj2 Hi2 Ht2) as (w2 & Hrun2 & Hrows2).
  destruct (upserted_one_row s jid i m1 w Ht1 Hle) as (r1 & Hone & Hidem).
  rewrite <-Hrows1 in Hone.
  assert (Hfind : List.find (has_key (s, jid, i)) (rows w1) = Some r1)
    by by rewrite find_head_filter, Hone.
  unfold upserted in Hrows2. rewrite Hfind in Hrows2.
  exists w1, w2, r1. repeat split; try done.
  - rewrite Hrows2.
    apply (filter_alter_first _ (λ _, transformPrisma m2 ∪ r1) _ r1); [done|].
    unfold has_key. rewrite key_of_union_payload
      by by rewrite touches_key_transformPrisma.
    by apply find_some_holds in Hfind.
  - intros f v Hf. by apply lookup_union_Some_l.
  - intros f Hf. by apply lookup_union_r.
  - intros <-. rewrite Hrows2, Hidem. by apply alter_first_same.
Qed.

(** ** Update by delete and recreate *)

Lemma find_app_last {A} (P : A → bool) l x :
  existsb P l = false → P x = true → List.find P (l ++ [x]) = Some x.
Proof.
  intros Hl Hx. induction l as [|y l IH]; simpl in *; [by rewrite Hx|].
  apply orb_false_iff in Hl as [-> Hl]. by apply IH.
Qed.

(** The transaction body of [update] on a row that exists and whose
    merged record has a key substructure. *)
Lemma update_body_found s (delta : Obj) key j i prev dkey w :
  key_remoteJid key = Some j → key_id key = Some i →
  List.find (has_key (s, j, i)) (rows w) = Some prev →
  (delta ∪ prev) !! "key" = Some (VKey dkey) →
  let rest := remove_first (has_key (s, j, i)) (rows w) in
  let new := with_key_columns s (key_remoteJid dkey) (key_id dkey)
               (transformPrisma (delta ∪ prev)) in
  update_body s delta key w
  = match create new (with_rows rest w) with
    | Ok _ w2 => Ok tt (published (update_success s new) w2)
    | Throw e w2 => Throw e w2
    end.
Proof.
  intros Hj Hi Hfind Hkey rest new. unfold update_body, bind.
  rewrite (findFirst_message _ _ _ _ _ Hj Hi), Hfind, Hj, Hi.
  cbn [where_unique ret]. unfold delete_unique.
  rewrite (find_existsb _ _ _ Hfind). unfold read_key. rewrite Hkey.
  cbn [ret]. fold rest. fold new.
  by destruct (create new (with_rows rest w)) as [[] w2|e w2].
Qed.

Lemma update_run s (delta : Obj) key (more : list (Obj * MessageKey)) w :
  update s ((delta, key) :: more) w
  = update s more
      match transaction (update_body s delta key) w with
      | Ok _ w1 => w1
      | Throw e w1 =>
          published (error_outcome "messages.update" "messages update" s e)
            (logged LError "An error occured during messages update" w1)
      end.
Proof.
  unfold update. cbn [for_of]. unfold bind at 1, try_catch. cbn [fst snd].
  by destruct (transaction (update_body s delta key) w) as [[] w1|e w1].
Qed.


(** ** Runs on concrete inputs *)

(** A full resync with two messages over a session that held one row. *)
Example set_replaces_session_rows :
  let w := world_of (set "s1" [text_message chat "OLD" 1] true empty_world) in
  let w' := world_of (set "s1" [text_message chat "A" 1; text_message chat "B" 2] true w) in
  length (session_rows "s1" (rows w)) = 1%nat
  ∧ map key_of (rows w') = [Some ("s1", chat, "A"); Some ("s1", chat, "B")]
  ∧ map ev_status (emitted w') = [None; None].
Proof. by vm_compute. Qed.

(** A full resync whose batch repeats a key: the insert fails and the
    delete is undone. *)
Example set_duplicate_rolls_back :
  let w := world_of (set "s1" [text_message chat "OLD" 1] true empty_world) in
  let w' := world_of (set "s1" [text_message chat "A" 1; text_message chat "A" 2] true w) in
  rows w' = rows w
  ∧ map ev_message (emitted w')
    = [None; Some "An error occured during messages set: Unique constraint failed"].
Proof. by vm_compute. Qed.

(** A batch whose first message has no id: its upsert is rejected, the
    error outcome is published, and the second message is still stored. *)
Example upsert_continues_after_failure :
  let bad : Obj := {[ "key" := VKey (mkKey (Some chat) None None None) ]} in
  let good := text_message chat "B" 2 in
  let w' := world_of (upsert jidNormalizedUser_baileys toNumber_baileys "s1"
                        [bad; good] "notify" empty_world) in
  map key_of (rows w') = [Some ("s1", chat, "B")]
  ∧ map ev_status (emitted w') = [Some "error"; None].
Proof. by vm_compute. Qed.

Lemma upsert_isolates_failures_witness :
  let bad : Obj := {[ "key" := VKey (mkKey (Some chat) None None None) ]} in
  let good := text_message chat "B" 2 in
  ("notify" = "append" ∨ "notify" = "notify")
  ∧ ∃ w' outs,
      upsert jidNormalizedUser_baileys toNumber_baileys "s1" [bad; good] "notify"
        empty_world = Ok tt w'
      ∧ emitted w' = emitted empty_world ++ outs
      ∧ Forall2 (upsert_outcome "s1") [bad; good] outs.
Proof.
  intros bad good. split; [by right|].
  exact (proj1 (upsert_isolates_failures jidNormalizedUser_baileys toNumber_baileys
                  "s1" "notify" [bad; good] empty_world (or_intror eq_refl))).
Defined.

Lemma upsert_twice_leaves_one_row_witness :
  let m1 := text_message chat "3EB0" 1 in
  let m2 := text_message chat "3EB0" 4 in
  let k := ("s1", chat, "3EB0") in
  (length (List.filter (has_key k) (rows empty_world)) ≤ 1)%nat
  ∧ ∃ w1 w2 r1,
      upsert jidNormalizedUser_baileys toNumber_baileys "s1" [m1] "append"
        empty_world = Ok tt w1
      ∧ upsert jidNormalizedUser_baileys toNumber_baileys "s1" [m2] "append" w1
        = Ok tt w2
      ∧ List.filter (has_key k) (rows w1) = [r1]
      ∧ List.filter (has_key k) (rows w2) = [transformPrisma m2 ∪ r1]
      ∧ (∀ f v, transformPrisma m2 !! f = Some v →
                (transformPrisma m2 ∪ r1) !! f = Some v)
      ∧ (∀ f, transformPrisma m2 !! f = None →
              (transformPrisma m2 ∪ r1) !! f = r1 !! f)
      ∧ (m1 = m2 → rows w2 = rows w1).
Proof.
  intros m1 m2 k.
  assert (Hle : (length (List.filter (has_key k) (rows empty_world)) ≤ 1)%nat)
    by (simpl; lia).
  split; [exact Hle|].
  exact (upsert_twice_leaves_one_row jidNormalizedUser_baileys toNumber_baileys
           "s1" "append" m1 m2
           (mkKey (Some chat) (Some false) (Some "3EB0") None)
           (mkKey (Some chat) (Some false) (Some "3EB0") None)
           chat "3EB0" empty_world
           (or_introl eq_refl) eq_refl eq_refl eq_refl eq_refl eq_refl eq_refl
           eq_refl eq_refl Hle).
Defined.


(** The same happens to a row that [upsert] stored under the normalised
    chat id while its key substructure kept the id as received: an update
    that touches only [status] recreates the row under the id as received. *)
Example update_after_normalised_upsert :
  let m := text_message "628123:7@s.whatsapp.net" "3EB0" 1 in
  let w := world_of (upsert jidNormalizedUser_baileys toNumber_baileys "s1"
                       [m] "notify" empty_world) in
  let key := mkKey (Some chat) (Some false) (Some "3EB0") None in
  let w' := world_of (update "s1" [({[ "status" := VNum 3 ]}, key)] w) in
  map key_of (rows w) = [Some ("s1", chat, "3EB0")]
  ∧ map key_of (rows w') = [Some ("s1", "628123:7@s.whatsapp.net", "3EB0")]
  ∧ List.find (has_key ("s1", chat, "3EB0")) (rows w') = None.
Proof. by vm_compute. Qed.

(** An update whose merged key is already taken by another row: the
    insert fails, the delete is undone and both rows are as before. *)
Example update_collision_rolls_back :
  let w := world_of (set "s1" [text_message chat "3EB0" 1; text_message chat "3EB9" 2]
                       true empty_world) in
  let key := mkKey (Some chat) (Some false) (Some "3EB0") None in
  let delta : Obj :=
    {[ "key" := VKey (mkKey (Some chat) (Some false) (Some "3EB9") None) ]} in
  let w' := world_of (update "s1" [(delta, key)] w) in
  rows w' = rows w
  ∧ map ev_message (emitted w')
    = [None; Some "An error occured during messages update: Unique constraint failed"].
Proof. by vm_compute. Qed.



(** * Further properties of the handlers *)

(** ** Subscription lifecycle *)

Lemma event_off_last name f ls tl :
  (name, f) ∉ tl → event_off name f (ls ++ (name, f) :: tl) = ls ++ tl.
Proof.
  intros Hfresh. unfold event_off.
  rewrite reverse_app, reverse_cons, <-app_assoc. simpl.
  assert (Hskip : ∀ l k, (name, f) ∉ l →
            remove_first (λ x, bool_decide (x = (name, f))) (l ++ (name, f) :: k)
            = l ++ k).
  { intros l k Hl. induction l as [|y l' IH]; simpl.
    - by rewrite bool_decide_eq_true_2.
    - apply not_elem_of_cons in Hl as [Hy Hl].
      rewrite bool_decide_eq_false_2 by done. by rewrite IH. }
  rewrite Hskip by by rewrite elem_of_reverse.
  by rewrite reverse_app, !reverse_involutive.
Qed.

Lemma on_all ls (subs : list (string * Listener)) :
  foldl (λ ls x, event_on (fst x) (snd x) ls) ls subs = ls ++ subs.
Proof.
  revert ls. induction subs as [|[n f] subs IH]; intros ls; simpl.
  - by rewrite app_nil_r.
  - rewrite IH. unfold event_on. by rewrite <-app_assoc.
Qed.

Lemma off_all ls (subs : list (string * Listener)) :
  NoDup subs →
  foldl (λ ls x, event_off (fst x) (snd x) ls) (ls ++ subs) subs = ls.
Proof.
  induction subs as [|[n f] subs IH]; simpl.
  - intros _. by rewrite app_nil_r.
  - rewrite NoDup_cons. intros [Hfresh Hnd].
    rewrite event_off_last by done. by apply IH.
Qed.

Lemma subscriptions_NoDup : NoDup subscriptions.
Proof. apply (bool_decide_unpack _). by vm_compute. Qed.

(** X1.  Whatever sequence of [listen] and [unlisten] calls is made on an
    instance that starts unsubscribed, the event source holds the listeners
    it held before, followed by the six handlers exactly once each when
    the instance is listening and by nothing when it is not.  So a second
    [listen] adds nothing, and [unlisten] without a [listen] removes
    nothing, not even a listener of another component. *)
Theorem subscription_exactly_once (calls : list Call) (others : list (string * Listener)) :
  listeners (foldl call (mkSubscription false others) calls)
  = others ++ (if listening (foldl call (mkSubscription false others) calls)
               then subscriptions else []).
Proof.
  induction calls as [|c calls IH] using rev_ind.
  - cbn. by rewrite app_nil_r.
  - rewrite foldl_app. cbn [foldl].
    destruct (foldl call (mkSubscription false others) calls) as [l ls].
    cbn [listening listeners] in IH. subst ls.
    destruct c, l; unfold call, listen, unlisten; cbn [listening listeners negb].
    + done.
    + by rewrite on_all, app_nil_r.
    + by rewrite off_all, app_nil_r by apply subscriptions_NoDup.
    + done.
Qed.

(** ** Tables before and after a run *)

Lemma still_ret {A} (a : A) : still (ret a).
Proof. by intros w. Qed.

Lemma still_throw {A} e : still (@throw A e).
Proof. by intros w. Qed.

Lemma still_bind {A B} (m : M A) (k : A → M B) :
  still m → (∀ a, still (k a)) → still (bind m k).
Proof.
  intros Hm Hk w. unfold bind. specialize (Hm w).
  destruct (m w) as [a w'|e w']; simpl in *; [|done].
  by rewrite (Hk a w').
Qed.

Lemma still_findFirst q : still (findFirst q).
Proof. by intros w. Qed.

Lemma still_where_unique s j i : still (where_unique s j i).
Proof. intros w. by destruct j, i. Qed.

Lemma still_chat_count s j : still (chat_count s j).
Proof. by intros w. Qed.

Lemma still_read_key o prop : still (read_key o prop).
Proof. intros w. unfold read_key. by repeat case_match. Qed.

Lemma still_receipts_or_empty v : still (receipts_or_empty v).
Proof. intros w. unfold receipts_or_empty. by repeat case_match. Qed.

Lemma still_reactions_or_empty v : still (reactions_or_empty v).
Proof. intros w. unfold reactions_or_empty. by repeat case_match. Qed.

Lemma still_logger lvl text : still (logger lvl text).
Proof. by intros w. Qed.

Lemma still_bus_emit c : still (bus_emit c).
Proof. by intros w. Qed.

Lemma still_emitEvent name s data status message :
  still (emitEvent name s data status message).
Proof. by intros w. Qed.

Lemma still_report name logText op s e : still (report name logText op s e).
Proof. intros w. by rewrite report_eq. Qed.

Lemma still_process_message s message : still (process_message s message).
Proof. apply still_bind; [apply still_read_key|]. intros k. apply still_ret. Qed.

Lemma still_map_of {A B} (xs : list A) (f : A → M B) :
  (∀ x, still (f x)) → still (map_of xs f).
Proof.
  intros Hf. induction xs as [|x xs IH]; simpl.
  - apply still_ret.
  - apply still_bind; [done|]. intros y.
    apply still_bind; [done|]. intros ys. apply still_ret.
Qed.

Create HintDb still.

#[export] Hint Resolve still_ret still_throw still_findFirst still_where_unique
  still_chat_count still_read_key still_receipts_or_empty
  still_reactions_or_empty still_logger still_bus_emit still_emitEvent
  still_report still_process_message still_map_of : still.

Ltac still_solver :=
  repeat first
    [ progress intros
    | apply still_bind
    | match goal with
      | |- still (if ?b then _ else _) => destruct b
      | |- still (match ?x with _ => _ end) => destruct x
      end
    | solve [auto with still] ].

Section Related.

Context (R : list Obj → list Obj → Prop) `{!Reflexive R, !Transitive R}.

Lemma related_still {A} (m : M A) : still m → related R m.
Proof. intros Hm w. by rewrite Hm. Qed.

(** The continuation may use that its argument was returned by [m]. *)
Lemma related_bind {A B} (m : M A) (k : A → M B) :
  related R m → (∀ a w w', m w = Ok a w' → related R (k a)) →
  related R (bind m k).
Proof.
  intros Hm Hk w. unfold bind. specialize (Hm w).
  destruct (m w) as [a w'|e w'] eqn:E; simpl in *; [|done].
  etrans; [exact Hm|]. by apply (Hk a w w').
Qed.

Lemma related_try_catch {A} (m : M A) h :
  related R m → (∀ e, related R (h e)) → related R (try_catch m h).
Proof.
  intros Hm Hh w. unfold try_catch. specialize (Hm w).
  destruct (m w) as [a w'|e w']; simpl in *; [done|].
  etrans; [exact Hm|]. apply Hh.
Qed.

Lemma related_transaction {A} (m : M A) : related R m → related R (transaction m).
Proof.
  intros Hm w. unfold transaction. specialize (Hm w).
  destruct (m w) as [a w'|e w']; simpl in *; [done|]. reflexivity.
Qed.

Lemma related_for_of {A} (xs : list A) body :
  (∀ x, x ∈ xs → related R (body x)) → related R (for_of xs body).
Proof.
  induction xs as [|x xs IH]; intros Hb; simpl.
  - apply related_still, still_ret.
  - apply related_bind; [apply Hb; by left|]. intros _ _ _ _.
    apply IH. intros y Hy. apply Hb. by right.
Qed.

Lemma related_createMany ds :
  (∀ d, d ∈ ds → related R (create d)) → related R (createMany ds).
Proof.
  intros Hc w. unfold createMany.
  pose proof (related_for_of ds create Hc w) as H.
  destruct (for_of ds create w) as [a w'|e w']; simpl in *; [done|]. reflexivity.
Qed.

Lemma related_report name logText op s e : related R (report name logText op s e).
Proof. apply related_still, still_report. Qed.

End Related.

Ltac related_solver leaf :=
  repeat first
    [ progress intros
    | apply related_report; solve [tc_solve]
    | apply related_still; first [solve [tc_solve]|solve [still_solver]]
    | apply related_try_catch; try solve [tc_solve]
    | apply related_transaction; try solve [tc_solve]
    | apply related_for_of; try solve [tc_solve]
    | apply related_createMany; try solve [tc_solve]
    | apply related_bind; try solve [tc_solve]
    | match goal with
      | |- related _ (if ?b then _ else _) => destruct b
      | |- related _ (match ?x with _ => _ end) => destruct x
      end
    | solve [leaf] ].

(** ** Rows of other sessions *)

#[global] Instance same_others_refl s : Reflexive (same_others s).
Proof. intros t. reflexivity. Qed.

#[global] Instance same_others_trans s : Transitive (same_others s).
Proof. intros t1 t2 t3 H12 H23. unfold same_others in *. congruence. Qed.

Lemma has_key_in_session s j i r :
  has_key (s, j, i) r = true → in_session s r = true.
Proof.
  unfold has_key. intros H%bool_decide_eq_true. apply in_session_col.
  unfold key_of in H.
  destruct (col_str "sessionId" r), (col_str "remoteJid" r), (col_str "id" r);
    congruence.
Qed.

Lemma matches_in_session s q r :
  ("sessionId", CEq s) ∈ q → matches q r = true → in_session s r = true.
Proof.
  intros Hin Hm. unfold matches in Hm. rewrite forallb_forall in Hm.
  apply list_elem_of_In, Hm in Hin. simpl in Hin.
  unfold in_session, matches. simpl. by rewrite Hin.
Qed.

Lemma other_rows_filter s (P : Obj → bool) t :
  (∀ r, P r = false → in_session s r = true) →
  other_rows s (List.filter P t) = other_rows s t.
Proof.
  intros HP. unfold other_rows. induction t as [|r t IH]; simpl; [done|].
  destruct (P r) eqn:E; simpl; [by rewrite IH|].
  by rewrite (HP r E), IH.
Qed.

Lemma other_rows_remove_first s (P : Obj → bool) t :
  (∀ r, P r = true → in_session s r = true) →
  other_rows s (remove_first P t) = other_rows s t.
Proof.
  intros HP. unfold other_rows. induction t as [|r t IH]; simpl; [done|].
  destruct (P r) eqn:E; simpl; [by rewrite (HP r E)|by rewrite IH].
Qed.

Lemma other_rows_alter_first s (P : Obj → bool) f t :
  (∀ r, P r = true → in_session s r = true ∧ in_session s (f r) = true) →
  other_rows s (alter_first P f t) = other_rows s t.
Proof.
  intros HP. unfold other_rows. induction t as [|r t IH]; simpl; [done|].
  destruct (P r) eqn:E; simpl; [|by rewrite IH].
  destruct (HP r E) as [-> ->]. done.
Qed.

Lemma other_rows_snoc s t r :
  in_session s r = true → other_rows s (t ++ [r]) = other_rows s t.
Proof.
  intros Hr. unfold other_rows. rewrite List.filter_app. simpl.
  by rewrite Hr, app_nil_r.
Qed.

Lemma in_session_union s (d r : Obj) :
  touches_key d = false → in_session s (d ∪ r) = in_session s r.
Proof.
  intros (_ & Hs & _)%touches_key_false. unfold in_session, matches, col_str.
  simpl. by rewrite lookup_union_r.
Qed.

Lemma same_others_deleteMany s q :
  ("sessionId", CEq s) ∈ q → related (same_others s) (deleteMany q).
Proof.
  intros Hq w. unfold deleteMany. destruct (forallb _ q); simpl; [|reflexivity].
  apply other_rows_filter. intros r Hr. apply (matches_in_session s q); [done|].
  by destruct (matches q r).
Qed.

Lemma same_others_create s d :
  col_str "sessionId" d = Some s → related (same_others s) (create d).
Proof.
  intros Hd w. destruct (create d w) as [[] w'|e w'] eqn:Hc; simpl.
  - apply create_ok in Hc as (st & Hrows & Hst & _). unfold same_others.
    rewrite Hrows. apply other_rows_snoc, in_session_col.
    by apply (stored_as_session d).
  - apply create_throw in Hc as ->. reflexivity.
Qed.

Lemma same_others_delete_unique s j i :
  related (same_others s) (delete_unique (s, j, i)).
Proof.
  intros w. unfold delete_unique. destruct (existsb _ (rows w)); simpl; [|reflexivity].
  apply other_rows_remove_first. intros r. apply has_key_in_session.
Qed.

Lemma same_others_update_unique s j i data :
  touches_key data = false → related (same_others s) (update_unique (s, j, i) data).
Proof.
  intros Ht w. unfold update_unique.
  destruct (List.find (has_key (s, j, i)) (rows w)) as [r|] eqn:Hfind; [|reflexivity].
  rewrite Ht. cbn [world_of rows with_rows].
  apply other_rows_alter_first. intros x Hx. split.
  - by apply has_key_in_session in Hx.
  - rewrite in_session_union by done.
    apply find_some_holds in Hfind. by apply has_key_in_session in Hfind.
Qed.

Lemma same_others_upsert_unique s j i c u :
  col_str "sessionId" c = Some s → touches_key u = false →
  related (same_others s) (upsert_unique (s, j, i) c u).
Proof.
  intros Hc Hu w. unfold upsert_unique.
  destruct (existsb _ (rows w));
    [by apply same_others_update_unique|by apply same_others_create].
Qed.

Lemma where_unique_ok s j i w k w' :
  where_unique s j i w = Ok k w' → ∃ j' i', k = (s, j', i').
Proof. destruct j, i; simpl; intros [= <- _]; by eexists _, _. Qed.

Lemma col_session_with_key_columns s j i (o : Obj) :
  col_str "sessionId" (with_key_columns s j i o) = Some s.
Proof. unfold with_key_columns, col_str. simpl. by rewrite lookup_insert_eq. Qed.

Lemma processed_in_session s (messages ps : list Obj) w w' d :
  map_of messages (process_message s) w = Ok ps w' → d ∈ ps →
  col_str "sessionId" d = Some s.
Proof.
  intros Hmap Hd. pose proof (process_messages_spec s messages w) as H.
  rewrite Hmap in H. destruct H as [_ H].
  apply list_elem_of_lookup in Hd as [n Hn].
  destruct (Forall2_lookup_r _ _ _ _ _ H Hn) as (m & _ & Hm).
  by eapply processed_from_session.
Qed.

Lemma sessionId_constrains s (q : Where) :
  ("sessionId", CEq s) ∈ q ++ where_eq "sessionId" (Some s).
Proof. apply elem_of_app. right. simpl. by left. Qed.

Create HintDb same_others.

#[export] Hint Resolve same_others_delete_unique same_others_create
  same_others_update_unique same_others_upsert_unique same_others_deleteMany
  col_session_with_key_columns payload_column_userReceipt
  payload_column_reactions touches_key_singleton : same_others.

Ltac same_others_leaf :=
  repeat match goal with
         | H : where_unique _ _ _ _ = Ok _ _ |- _ =>
             apply where_unique_ok in H as (? & ? & ->)
         end;
  eauto 6 using processed_in_session with same_others.

(** X3.  No handler touches the rows of another session: after any call
    of a handler of session [s], the rows whose [sessionId] is not [s] are
    the same rows, in the same order, as before.  For [upsert] this rests
    on the messages carrying none of the table's key columns, as a
    [WAMessage] does not. *)
Theorem handlers_keep_other_sessions (jidNormalizedUser : option string → string)
    (toNumber : option Val → Val) s
    (messages : list Obj) (isLatest : bool) (type : string)
    (updates : list (Obj * MessageKey)) (item : DeleteItem)
    (receipts : list (MessageKey * MessageUserReceipt))
    (reactions : list (MessageKey * Reaction)) w :
  Forall (λ m, touches_key m = false) messages →
  other_rows s (rows (world_of (set s messages isLatest w))) = other_rows s (rows w)
  ∧ other_rows s (rows (world_of (upsert jidNormalizedUser toNumber s messages type w)))
    = other_rows s (rows w)
  ∧ other_rows s (rows (world_of (update s updates w))) = other_rows s (rows w)
  ∧ other_rows s (rows (world_of (del s item w))) = other_rows s (rows w)
  ∧ other_rows s (rows (world_of (updateReceipt s receipts w))) = other_rows s (rows w)
  ∧ other_rows s (rows (world_of (updateReaction s reactions w)))
    = other_rows s (rows w).
Proof.
  intros Hmsgs. repeat split.
  - revert w. change (related (same_others s) (set s messages isLatest)).
    unfold set, set_body. related_solver same_others_leaf.
    apply same_others_deleteMany. by left.
  - revert w.
    change (related (same_others s) (upsert jidNormalizedUser toNumber s messages type)).
    unfold upsert, upsert_body. related_solver same_others_leaf.
    match goal with
    | H : where_unique _ _ _ _ = Ok _ _ |- _ =>
        apply where_unique_ok in H as (j' & i' & ->)
    end.
    apply same_others_upsert_unique; [apply col_session_with_key_columns|].
    rewrite touches_key_transformPrisma.
    match goal with
    | H : _ ∈ messages |- _ => exact (proj1 (Forall_forall _ _) Hmsgs _ H)
    end.
  - revert w. change (related (same_others s) (update s updates)).
    unfold update, update_body. related_solver same_others_leaf.
  - revert w. change (related (same_others s) (del s item)).
    unfold del, del_body. related_solver same_others_leaf.
    + apply same_others_deleteMany. apply (sessionId_constrains s [_]).
    + apply same_others_deleteMany.
      rewrite app_assoc. apply sessionId_constrains.
  - revert w. change (related (same_others s) (updateReceipt s receipts)).
    unfold updateReceipt, updateReceipt_body. related_solver same_others_leaf.
  - revert w. change (related (same_others s) (updateReaction s reactions)).
    unfold updateReaction, updateReaction_body. related_solver same_others_leaf.
Qed.

Lemma handlers_keep_other_sessions_witness :
  let w := world_of (set "s2" [text_message chat "A" 1] true empty_world) in
  let batch := [text_message chat "A" 7; text_message chat "B" 8] in
  Forall (λ m, touches_key m = false) batch
  ∧ map key_of (other_rows "s1" (rows w)) = [Some ("s2", chat, "A")]
  ∧ other_rows "s1" (rows (world_of (set "s1" batch true w))) = other_rows "s1" (rows w).
Proof.
  intros w batch.
  assert (Hb : Forall (λ m, touches_key m = false) batch)
    by (repeat constructor).
  split; [exact Hb|]. split; [reflexivity|].
  exact (proj1 (handlers_keep_other_sessions jidNormalizedUser_baileys
                  toNumber_baileys "s1" batch true "notify" [] (DelKeys []) [] [] w Hb)).
Defined.

(** ** Replayed receipts and reactions *)

Lemma disowned_app {A} (owner : A → string) u l1 l2 :
  disowned owner u (l1 ++ l2) = disowned owner u l1 ++ disowned owner u l2.
Proof. apply List.filter_app. Qed.

Lemma disowned_absent_id {A} (owner : A → string) u l :
  u ∉ owner <$> l → disowned owner u l = l.
Proof.
  induction l as [|x l IH]; csimpl; [done|].
  rewrite not_elem_of_cons. intros [Hne Hl].
  destruct (String.eqb_spec (owner x) u) as [E|_]; [by destruct Hne|].
  csimpl. f_equal. by apply IH.
Qed.

Lemma disowned_singleton {A} (owner : A → string) u x :
  owner x = u → disowned owner u [x] = [].
Proof. intros <-. unfold disowned. csimpl. by rewrite String.eqb_refl. Qed.

Lemma merge_receipt_replay stored receipt :
  merge_receipt (merge_receipt stored receipt) receipt = merge_receipt stored receipt.
Proof.
  rewrite (merge_receipt_eq (merge_receipt stored receipt)).
  assert (Hform : ∃ X, merge_receipt stored receipt = X ++ [receipt]
                       ∧ userJid receipt ∉ userJid <$> X).
  { rewrite merge_receipt_eq. case_bool_decide as Hin.
    - eexists. split; [done|]. apply disowned_absent.
    - by exists stored. }
  destruct Hform as (X & -> & HX).
  rewrite bool_decide_eq_true_2
    by (rewrite fmap_app; apply elem_of_app; right; csimpl; by left).
  by rewrite disowned_app, disowned_absent_id, disowned_singleton, app_nil_r.
Qed.

Lemma merge_reaction_replay stored reaction :
  merge_reaction (merge_reaction stored reaction) reaction
  = merge_reaction stored reaction.
Proof.
  rewrite (merge_reaction_eq (merge_reaction stored reaction)), merge_reaction_eq.
  rewrite disowned_app, (disowned_absent_id author _ (disowned _ _ _))
    by apply disowned_absent.
  destruct (has_text reaction); [|by rewrite !app_nil_r].
  by rewrite disowned_singleton, app_nil_r.
Qed.

(** X5.  Replaying a receipt event is harmless: when the same
    (key, receipt) is delivered twice for a stored row, the table after the
    second delivery is the table after the first, whatever receipts the row
    held. *)
Theorem updateReceipt_replay_idempotent s key j i
    (receipt : MessageUserReceipt) (r : Obj) (stored : list MessageUserReceipt) w :
  key_remoteJid key = Some j →
  key_id key = Some i →
  List.find (has_key (s, j, i)) (rows w) = Some r →
  receipts_in r stored →
  ∃ w1 w2,
    updateReceipt s [(key, receipt)] w = Ok tt w1
    ∧ updateReceipt s [(key, receipt)] w1 = Ok tt w2
    ∧ List.find (has_key (s, j, i)) (rows w1)
      = Some (<["userReceipt" := VReceipts (merge_receipt stored receipt)]> r)
    ∧ rows w2 = rows w1.
Proof.
  intros Hj Hi Hr Hin.
  set (written := <["userReceipt" := VReceipts (merge_receipt stored receipt)]> r).
  assert (Hkey : has_key (s, j, i) written = true).
  { unfold has_key, written. rewrite key_of_insert_payload
      by apply payload_column_userReceipt. by apply find_some_holds in Hr. }
  pose proof (updateReceipt_body_found s key j i receipt r stored w Hj Hi Hr Hin) as H1.
  fold written in H1.
  set (w1 := published _ (with_rows _ w)) in H1.
  assert (Hr1 : List.find (has_key (s, j, i)) (rows w1) = Some written)
    by (apply (alter_first_find _ (λ _, written) _ r); done).
  assert (Hin1 : receipts_in written (merge_receipt stored receipt))
    by (left; apply lookup_insert_eq).
  pose proof (updateReceipt_body_found s key j i receipt written _ w1 Hj Hi Hr1 Hin1)
    as H2.
  rewrite merge_receipt_replay in H2.
  replace (<["userReceipt" := VReceipts (merge_receipt stored receipt)]> written)
    with written in H2 by (unfold written; by rewrite insert_insert_eq).
  eexists _, _. split; [|split; [|split]].
  - unfold updateReceipt. cbn [for_of]. unfold bind, try_catch, transaction.
    cbn [fst snd]. by rewrite H1.
  - unfold updateReceipt. cbn [for_of]. unfold bind, try_catch, transaction.
    cbn [fst snd]. by rewrite H2.
  - exact Hr1.
  - cbn [rows published with_rows]. by apply alter_first_same.
Qed.

(** X6.  Replaying a reaction event is harmless in the same way: the
    table after the second delivery of the same (key, reaction) is the
    table after the first, for a reaction with text and for a retraction. *)
Theorem updateReaction_replay_idempotent s key j i
    (reaction : Reaction) (r : Obj) (stored : list Reaction) w :
  key_remoteJid key = Some j →
  key_id key = Some i →
  List.find (has_key (s, j, i)) (rows w) = Some r →
  reactions_in r stored →
  ∃ w1 w2,
    updateReaction s [(key, reaction)] w = Ok tt w1
    ∧ updateReaction s [(key, reaction)] w1 = Ok tt w2
    ∧ List.find (has_key (s, j, i)) (rows w1)
      = Some (<["reactions" := VReactions (merge_reaction stored reaction)]> r)
    ∧ rows w2 = rows w1.
Proof.
  intros Hj Hi Hr Hin.
  set (written := <["reactions" := VReactions (merge_reaction stored reaction)]> r).
  assert (Hkey : has_key (s, j, i) written = true).
  { unfold has_key, written. rewrite key_of_insert_payload
      by apply payload_column_reactions. by apply find_some_holds in Hr. }
  pose proof (updateReaction_body_found s key j i reaction r stored w Hj Hi Hr Hin) as H1.
  fold written in H1.
  set (w1 := published _ (with_rows _ w)) in H1.
  assert (Hr1 : List.find (has_key (s, j, i)) (rows w1) = Some written)
    by (apply (alter_first_find _ (λ _, written) _ r); done).
  assert (Hin1 : reactions_in written (merge_reaction stored reaction))
    by (left; apply lookup_insert_eq).
  pose proof (updateReaction_body_found s key j i reaction written _ w1 Hj Hi Hr1 Hin1)
    as H2.
  rewrite merge_reaction_replay in H2.
  replace (<["reactions" := VReactions (merge_reaction stored reaction)]> written)
    with written in H2 by (unfold written; by rewrite insert_insert_eq).
  eexists _, _. split; [|split; [|split]].
  - unfold updateReaction. cbn [for_of]. unfold bind, try_catch, transaction.
    cbn [fst snd]. by rewrite H1.
  - unfold updateReaction. cbn [for_of]. unfold bind, try_catch, transaction.
    cbn [fst snd]. by rewrite H2.
  - exact Hr1.
  - cbn [rows published with_rows]. by apply alter_first_same.
Qed.

(** ** Scope of a delete request *)

Lemma filter_ext_bool {A} (P Q : A → bool) l :
  (∀ x, P x = Q x) → List.filter P l = List.filter Q l.
Proof. intros E. induction l as [|x l IH]; simpl; [done|]. by rewrite E, IH. Qed.

Lemma elem_of_filter_bool {A} (P : A → bool) l x :
  x ∈ List.filter P l ↔ x ∈ l ∧ P x = true.
Proof. rewrite !list_elem_of_In. apply List.filter_In. Qed.

Lemma matches_chat s jid r :
  matches (where_eq "remoteJid" (Some jid) ++ where_eq "sessionId" (Some s)) r
  = in_chat s jid r.
Proof.
  unfold matches, in_chat. simpl.
  destruct (col_str "remoteJid" r) as [j|], (col_str "sessionId" r) as [s'|]; simpl;
    rewrite ?eqb_eq_bool_decide, ?andb_true_r, ?andb_false_r;
    repeat case_bool_decide; try done;
    repeat match goal with H : _ ∧ _ |- _ => destruct H end;
    simplify_eq; try done;
    match goal with H : ¬ _ |- _ => by destruct H end.
Qed.

Lemma matches_keys s jid keys r :
  matches ([("id", CIn (map key_id keys))] ++ where_eq "remoteJid" (Some jid)
           ++ where_eq "sessionId" (Some s)) r
  = named_by s jid keys r.
Proof.
  unfold named_by. rewrite <-matches_chat. unfold matches.
  cbn [forallb app fst snd cond_holds].
  apply andb_comm.
Qed.

(** X7.  A delete-all request for the chat [jid] removes exactly the rows
    whose [remoteJid] is [jid] and whose [sessionId] is the handler's
    session: every other row, of another chat or of another session, is
    kept, in order; the call publishes one success outcome describing the
    request. *)
Theorem del_all_scoped s jid w :
  ∃ w', del s (DelAll jid) w = Ok tt w'
        ∧ rows w' = List.filter (λ r, negb (in_chat s jid r)) (rows w)
        ∧ (∀ r, r ∈ rows w' ↔
                r ∈ rows w ∧ ¬ (col_str "remoteJid" r = Some jid
                                ∧ col_str "sessionId" r = Some s))
        ∧ emitted w' = emitted w ++ [delete_success s (DelAll jid)].
Proof.
  eexists. split; [reflexivity|]. cbn [rows emitted with_rows].
  assert (Hrows : List.filter (λ r, negb (matches
             (where_eq "remoteJid" (Some jid) ++ where_eq "sessionId" (Some s)) r))
             (rows w)
           = List.filter (λ r, negb (in_chat s jid r)) (rows w)).
  { apply filter_ext_bool. intros r. by rewrite matches_chat. }
  split; [exact Hrows|]. split; [|done].
  intros r. rewrite Hrows, elem_of_filter_bool. unfold in_chat.
  rewrite negb_true_iff, bool_decide_eq_false. done.
Qed.

(** X8.  A delete-by-keys request whose keys all carry an id removes
    exactly the rows of the session that lie in the chat of the first key
    and whose id is the id of some key of the list; the chat named by any
    later key plays no part.  Every other row is kept, and the call
    publishes one success outcome describing the request. *)
Theorem del_keys_scoped s (k0 : MessageKey) (ks : list MessageKey) jid w :
  key_remoteJid k0 = Some jid →
  Forall (λ k, is_Some (key_id k)) (k0 :: ks) →
  ∃ w', del s (DelKeys (k0 :: ks)) w = Ok tt w'
        ∧ rows w' = List.filter (λ r, negb (named_by s jid (k0 :: ks) r)) (rows w)
        ∧ (∀ r, r ∈ rows w' ↔
                r ∈ rows w
                ∧ ¬ (col_str "remoteJid" r = Some jid
                     ∧ col_str "sessionId" r = Some s
                     ∧ ∃ k, k ∈ k0 :: ks ∧ is_Some (key_id k)
                            ∧ col_str "id" r = key_id k))
        ∧ emitted w' = emitted w ++ [delete_success s (DelKeys (k0 :: ks))].
Proof.
  intros Hjid Hids.
  assert (Hvalid : forallb (λ o, bool_decide (is_Some o)) (map key_id (k0 :: ks)) = true).
  { apply forallb_forall. intros o Ho. apply in_map_iff in Ho as (k & <- & Hk).
    apply bool_decide_eq_true. rewrite Forall_forall in Hids.
    by apply Hids, list_elem_of_In. }
  assert (Hrun : del s (DelKeys (k0 :: ks)) w
    = Ok tt (published (delete_success s (DelKeys (k0 :: ks)))
               (with_rows (List.filter (λ r, negb (named_by s jid (k0 :: ks) r)) (rows w)) w))).
  { unfold del, try_catch, del_body, bind. cbn [ret]. rewrite Hjid.
    unfold deleteMany. cbn [forallb app snd cond_valid where_eq].
    rewrite Hvalid. cbn [andb].
    rewrite (filter_ext_bool _ (λ r, negb (named_by s jid (k0 :: ks) r)));
      [done|]. intros r. by rewrite <-matches_keys. }
  eexists. split; [exact Hrun|]. cbn [rows emitted published with_rows].
  split; [done|]. split; [|done].
  intros r. rewrite elem_of_filter_bool. unfold named_by, in_chat.
  rewrite negb_true_iff, andb_false_iff, bool_decide_eq_false.
  split; intros [Hr Hcond]; (split; [done|]).
  - intros (Hj & Hs & k & Hk & [i Hi] & Hid). destruct Hcond as [Hc|Hc].
    + by apply Hc.
    + rewrite Hid, Hi in Hc. apply bool_decide_eq_false in Hc. apply Hc.
      rewrite <-Hi. apply list_elem_of_In, in_map. by apply list_elem_of_In.
  - destruct (decide (col_str "remoteJid" r = Some jid ∧ col_str "sessionId" r = Some s))
      as [[Hj Hs]|Hn]; [|by left].
    right. destruct (col_str "id" r) as [i|] eqn:Hi; [|done].
    apply bool_decide_eq_false. intros Hin. apply Hcond.
    split; [done|]. split; [done|].
    apply list_elem_of_In, in_map_iff in Hin as (k & Hk & Hkin).
    exists k. split; [by apply list_elem_of_In|]. split; [by rewrite Hk|done].
Qed.

(** A request naming two chats: the rows of the first key's chat with
    either id go, the row of the second chat stays. *)
Example del_keys_uses_first_chat :
  let other := "120363@g.us" in
  let w := world_of (set "s1" [text_message chat "A" 1; text_message chat "B" 2;
                               text_message other "B" 3] true empty_world) in
  let keys := [mkKey (Some chat) None (Some "A") None;
               mkKey (Some other) None (Some "B") None] in
  map key_of (rows (world_of (del "s1" (DelKeys keys) w)))
  = [Some ("s1", other, "B")].
Proof. by vm_compute. Qed.

Lemma del_keys_scoped_witness :
  let other := "120363@g.us" in
  let w := world_of (set "s1" [text_message chat "A" 1; text_message other "B" 3]
                       true empty_world) in
  let k0 := mkKey (Some chat) None (Some "A") None in
  let ks := [mkKey (Some other) None (Some "B") None] in
  Forall (λ k, is_Some (key_id k)) (k0 :: ks)
  ∧ ∃ w', del "s1" (DelKeys (k0 :: ks)) w = Ok tt w'
          ∧ rows w' = List.filter (λ r, negb (named_by "s1" chat (k0 :: ks) r)) (rows w).
Proof.
  intros other w k0 ks.
  assert (Hids : Forall (λ k, is_Some (key_id k)) (k0 :: ks))
    by (repeat constructor; by eexists).
  split; [exact Hids|].
  destruct (del_keys_scoped "s1" k0 ks chat w eq_refl Hids) as (w' & Hrun & Hrows & _).
  by exists w'.
Defined.

(** ** Chat requests of the upsert handler *)

Lemma chat_exists_count (P : string * string → bool) l :
  (0 <? length (List.filter P l))%nat = existsb P l.
Proof.
  induction l as [|x l IH]; simpl; [done|]. destruct (P x); simpl; [done|apply IH].
Qed.

Lemma where_unique_world s j i w : world_of (where_unique s j i w) = w.
Proof. by destruct j, i. Qed.

Lemma upsert_body_throw_bus jn tn s type (message : Obj) w e w1 :
  upsert_body jn tn s type message w = Throw e w1 → bus w1 = bus w ∧ chats w1 = chats w.
Proof.
  unfold upsert_body, bind.
  destruct (read_key message "remoteJid" w) as [key w0|e0 w0] eqn:Hk.
  - apply read_key_ok in Hk as [-> _].
    pose proof (where_unique_world s (Some (jn (key_remoteJid key))) (key_id key) w)
      as Hw.
    destruct (where_unique s _ (key_id key) w) as [k w0|e0 w0] eqn:Hu;
      simpl in Hw; subst w0.
    + destruct (upsert_unique k _ _ w) as [[] w0|e0 w0] eqn:Hup.
      * cbn [emitEvent chat_count]. destruct (_ && _); cbn [bus_emit ret]; done.
      * intros [= _ <-]. unfold upsert_unique in Hup.
        destruct (existsb _ (rows w)).
        -- unfold update_unique in Hup. by repeat case_match; simplify_eq.
        -- by apply create_throw in Hup as ->.
    + by intros [= _ <-].
  - intros [= _ <-]. by apply read_key_throw in Hk as ->.
Qed.

(** X9.  A message that [upsert] stores for a chat without a Chat row,
    in a batch tagged [notify], puts exactly one [chats.upsert] request on
    the session's event bus: for the normalised chat id, with the message's
    timestamp and an unread count of 1.  A batch tagged [append], or a chat
    that has its row, puts nothing there; a message whose processing throws
    puts nothing there either; and the handler never writes the Chat
    table. *)
Theorem upsert_requests_missing_chat (jidNormalizedUser : option string → string)
    (toNumber : option Val → Val) s type (message : Obj) key i w :
  type = "append" ∨ type = "notify" →
  message !! "key" = Some (VKey key) →
  key_id key = Some i →
  touches_key message = false →
  let jid := jidNormalizedUser (key_remoteJid key) in
  (∃ w', upsert jidNormalizedUser toNumber s [message] type w = Ok tt w'
         ∧ chats w' = chats w
         ∧ bus w'
           = bus w
             ++ (if String.eqb type "notify"
                    && negb (existsb (λ c, bool_decide (c = (s, jid))) (chats w))
                 then [mkChatUpsert jid (toNumber (message !! "messageTimestamp")) 1]
                 else []))
  ∧ (∀ (other : Obj) e w1,
        upsert_body jidNormalizedUser toNumber s type other w = Throw e w1 →
        ∃ w', upsert jidNormalizedUser toNumber s [other] type w = Ok tt w'
              ∧ chats w' = chats w ∧ bus w' = bus w).
Proof.
  intros Htype Hkey Hid Ht jid. split.
  - rewrite upsert_tagged by done.
    destruct (upsert_unique_run s jid i message w Ht) as (w1 & Hrun & Hrows).
    pose proof (still_upsert := Hrun).
    assert (Hsame : chats w1 = chats w ∧ bus w1 = bus w).
    { unfold upsert_unique in Hrun. destruct (existsb _ (rows w)).
      - unfold update_unique in Hrun. repeat case_match; simplify_eq; done.
      - unfold create in Hrun. repeat case_match; simplify_eq; done. }
    destruct Hsame as [Hc Hb].
    cbn [for_of]. unfold upsert_step, bind, try_catch, upsert_body, bind, read_key.
    rewrite Hkey. cbn [ret]. fold jid. rewrite Hid. cbn [where_unique ret].
    rewrite Hrun. cbn [emitEvent chat_count chats].
    rewrite chat_exists_count, Hc.
    destruct (_ && _); cbn [bus_emit ret]; eexists; (split; [done|]);
      cbn [chats bus]; rewrite ?app_nil_r; by rewrite Hb.
  - intros other e w1 Hthrow. rewrite upsert_tagged by done.
    apply upsert_body_throw_bus in Hthrow as Hsame. destruct Hsame as [Hb Hc].
    cbn [for_of]. unfold upsert_step, bind, try_catch. rewrite Hthrow, report_eq.
    cbn [ret]. eexists. split; [done|]. by cbn [chats bus published logged].
Qed.

Lemma upsert_requests_missing_chat_witness :
  let m := text_message "628123:7@s.whatsapp.net" "A" 1 in
  ("notify" = "append" ∨ "notify" = "notify")
  ∧ ∃ w', upsert jidNormalizedUser_baileys toNumber_baileys "s1" [m] "notify"
            empty_world = Ok tt w'
          ∧ chats w' = []
          ∧ bus w' = [mkChatUpsert chat (VNum 0) 1].
Proof.
  intros m. split; [by right|].
  exact (proj1 (upsert_requests_missing_chat jidNormalizedUser_baileys toNumber_baileys
                  "s1" "notify" m (mkKey (Some "628123:7@s.whatsapp.net") (Some false)
                                     (Some "A") None)
                  "A" empty_world (or_intror eq_refl) eq_refl eq_refl eq_refl)).
Defined.

(** ** Incremental history batches *)

Lemma existsb_app_false {A} (P : A → bool) l1 l2 :
  existsb P (l1 ++ l2) = false → existsb P l1 = false.
Proof. rewrite existsb_app. by intros [-> _]%orb_false_iff. Qed.

(** A multi-row insert that succeeds found every key free in the table it
    started from. *)
Lemma for_of_create_fresh ds : ∀ w w',
  for_of ds create w = Ok tt w' →
  ∀ d k, d ∈ ds → key_of d = Some k → existsb (has_key k) (rows w) = false.
Proof.
  induction ds as [|d0 ds IH]; intros w w'; simpl.
  - intros _ d k Hd. by apply elem_of_nil in Hd.
  - unfold bind. destruct (create d0 w) as [[] w1|e w1] eqn:Hc; [|done].
    intros Hrest d k Hd Hk. apply create_ok in Hc as (st & Hrows & _ & _ & Hfree).
    apply elem_of_cons in Hd as [->|Hd].
    + by rewrite Hk in Hfree.
    + specialize (IH _ _ Hrest d k Hd Hk). rewrite Hrows in IH.
      by apply existsb_app_false in IH.
Qed.

(** X10.  An incremental history batch (no resync flag) that contains a
    message whose composite key is already stored is rejected as a whole:
    the insert fails, no message of the batch is stored, the table is as
    before and the call publishes the error outcome. *)
Theorem set_rejects_stored_key s (messages : list Obj) (m : Obj) key j i w :
  m ∈ messages →
  m !! "key" = Some (VKey key) →
  key_remoteJid key = Some j →
  key_id key = Some i →
  existsb (has_key (s, j, i)) (rows w) = true →
  ∃ w' e,
    set s messages false w = Ok tt w'
    ∧ rows w' = rows w
    ∧ emitted w' = emitted w ++ [error_outcome "messages.upsert" "messages set" s e].
Proof.
  intros Hm Hkey Hj Hi Hstored. rewrite set_run. unfold transaction.
  destruct (set_body s messages false w) as [[] w1|e w1] eqn:Hrun.
  - exfalso. unfold set_body, bind in Hrun. cbn [ret] in Hrun.
    pose proof (process_messages_spec s messages w) as Hps.
    destruct (map_of messages (process_message s) w) as [ps w0|e w0]; [|done].
    destruct Hps as [-> Hps]. unfold createMany in Hrun.
    destruct (for_of ps create w) as [[] w2|e w2] eqn:Hc; [|done].
    apply list_elem_of_lookup in Hm as [n Hn].
    destruct (Forall2_lookup_l _ _ _ _ _ Hps Hn) as (p & Hp & k & Hk & ->).
    unfold message_key in Hk. rewrite Hkey in Hk. injection Hk as <-.
    rewrite Hj, Hi in Hp.
    pose proof (for_of_create_fresh ps w w2 Hc _ (s, j, i)
                  (list_elem_of_lookup_2 _ _ _ Hp) (key_of_with_key_columns _ _ _ _))
      as Hfree.
    congruence.
  - pose proof (set_body_spec s messages false w) as Hb. simpl in Hb.
    rewrite Hrun in Hb. exists (published (error_outcome "messages.upsert" "messages set" s e)
      (logged LError "An error occured during messages set" (with_rows (rows w) w1))), e.
    split; [done|]. cbn [rows emitted published logged with_rows]. by rewrite Hb.
Qed.

Lemma set_rejects_stored_key_witness :
  let w := world_of (set "s1" [text_message chat "A" 1] true empty_world) in
  let batch := [text_message chat "B" 2; text_message chat "A" 3] in
  existsb (has_key ("s1", chat, "A")) (rows w) = true
  ∧ ∃ w' e,
      set "s1" batch false w = Ok tt w'
      ∧ rows w' = rows w
      ∧ emitted w' = emitted w ++ [error_outcome "messages.upsert" "messages set" "s1" e].
Proof.
  intros w batch.
  assert (Hstored : existsb (has_key ("s1", chat, "A")) (rows w) = true)
    by reflexivity.
  split; [exact Hstored|].
  refine (set_rejects_stored_key "s1" batch (text_message chat "A" 3)
            (mkKey (Some chat) (Some false) (Some "A") None) chat "A" w
            _ eq_refl eq_refl eq_refl Hstored).
  unfold batch. apply elem_of_cons. right. apply elem_of_cons. by left.
Defined.

(** ** The surrogate key across an update *)

(** X11.  An update that commits keeps the row's surrogate key: when no
    other row holds the composite key of the merged record or the old
    row's [pkId], and the delta does not name [pkId], the transaction
    commits; the table then holds the other rows and the recreated row,
    which carries the [pkId] the old row had and is the only row that
    does. *)
Theorem update_keeps_pkId s (delta : Obj) key j i (prev : Obj) dkey j' i' p w :
  key_remoteJid key = Some j →
  key_id key = Some i →
  List.find (has_key (s, j, i)) (rows w) = Some prev →
  (delta ∪ prev) !! "key" = Some (VKey dkey) →
  key_remoteJid dkey = Some j' →
  key_id dkey = Some i' →
  delta !! "pkId" = None →
  prev !! "pkId" = Some (VNum p) →
  let rest := remove_first (has_key (s, j, i)) (rows w) in
  existsb (has_key (s, j', i')) rest = false →
  existsb (has_pk p) rest = false →
  ∃ w1 new,
    update s [(delta, key)] w = Ok tt w1
    ∧ rows w1 ≡ₚ new :: rest
    ∧ new !! "pkId" = Some (VNum p)
    ∧ key_of new = Some (s, j', i')
    ∧ (∀ r, r ∈ rows w1 → has_pk p r = true → r = new)
    ∧ emitted w1 = emitted w ++ [update_success s new].
Proof.
  intros Hj Hi Hfind Hkey Hj' Hi' Hdpk Hpk rest Hfree Hpkfree.
  set (new := with_key_columns s (Some j') (Some i') (transformPrisma (delta ∪ prev))).
  assert (Hnewpk : new !! "pkId" = Some (VNum p)).
  { unfold new. rewrite pk_of_with_key_columns. unfold transformPrisma.
    by rewrite lookup_fmap, lookup_union_r, Hpk. }
  assert (Hcreate : create new (with_rows rest w)
    = Ok tt (mkWorld (rest ++ [new]) (Z.max (nextPk w) (p + 1)) (chats w)
               (emitted w) (bus w) (logs w))).
  { unfold create. unfold new at 1. rewrite key_of_with_key_columns.
    cbn [rows with_rows]. rewrite Hfree, Hnewpk, Hpkfree. done. }
  exists (published (update_success s new)
            (mkWorld (rest ++ [new]) (Z.max (nextPk w) (p + 1)) (chats w)
               (emitted w) (bus w) (logs w))), new.
  split; [|split; [|split; [|split; [|split]]]].
  - rewrite update_run. unfold transaction.
    rewrite (update_body_found s delta key j i prev dkey w Hj Hi Hfind Hkey).
    rewrite Hj', Hi'. fold rest. fold new. by rewrite Hcreate.
  - cbn [rows published]. symmetry. apply Permutation_cons_append.
  - exact Hnewpk.
  - apply key_of_with_key_columns.
  - cbn [rows published]. intros r [Hr|Hr]%elem_of_app Hp.
    + exfalso. apply list_elem_of_In in Hr.
      assert (existsb (has_pk p) rest = true)
        by (apply existsb_exists; by exists r).
      congruence.
    + by apply list_elem_of_singleton in Hr.
  - done.
Qed.

Lemma update_keeps_pkId_witness :
  let k0 := mkKey (Some chat) (Some false) (Some "3EB0") None in
  let prev : Obj :=
    {[ "pkId" := VNum 7; "sessionId" := VStr "s1"; "remoteJid" := VStr chat;
       "id" := VStr "3EB0"; "key" := VKey k0; "status" := VNum 1 ]} in
  let later : Obj :=
    {[ "pkId" := VNum 8; "sessionId" := VStr "s1"; "remoteJid" := VStr chat;
       "id" := VStr "3EB9"; "status" := VNum 1 ]} in
  let delta : Obj := {[ "status" := VNum 3 ]} in
  let w := mkWorld [prev; later] 9 [] [] [] [] in
  List.find (has_key ("s1", chat, "3EB0")) (rows w) = Some prev
  ∧ ∃ w1 new, update "s1" [(delta, k0)] w = Ok tt w1
              ∧ rows w1 ≡ₚ [new; later]
              ∧ new !! "pkId" = Some (VNum 7)
              ∧ new !! "status" = Some (VNum 3).
Proof.
  intros k0 prev later delta w.
  assert (Hfind : List.find (has_key ("s1", chat, "3EB0")) (rows w) = Some prev)
    by reflexivity.
  split; [exact Hfind|].
  destruct (update_keeps_pkId "s1" delta k0 chat "3EB0" prev k0 chat "3EB0" 7 w
              eq_refl eq_refl Hfind eq_refl eq_refl eq_refl eq_refl eq_refl
              eq_refl eq_refl) as (w1 & new & Hrun & Hrows & Hpk & _ & _ & Hout).
  exists w1, new. split; [exact Hrun|]. split; [exact Hrows|]. split; [exact Hpk|].
  assert (Hw1 : update "s1" [(delta, k0)] w
    = Ok tt (published (update_success "s1"
                          (with_key_columns "s1" (Some chat) (Some "3EB0")
                             (transformPrisma (delta ∪ prev))))
               (mkWorld [later; with_key_columns "s1" (Some chat) (Some "3EB0")
                                  (transformPrisma (delta ∪ prev))]
                  9 [] [] [] []))) by by vm_compute.
  rewrite Hw1 in Hrun. injection Hrun as <-. cbn [emitted published] in Hout.
  simpl in Hout. injection Hout as <-. by vm_compute.
Defined.

Lemma updateReceipt_replay_idempotent_witness :
  let seen := mkReceipt "628@s.whatsapp.net" (Some 10) None None in
  let row : Obj :=
    {[ "pkId" := VNum 1; "sessionId" := VStr "s1"; "remoteJid" := VStr "g@g.us";
       "id" := VStr "3EB0" ]} in
  let w := mkWorld [row] 2 [] [] [] [] in
  let key := mkKey (Some "g@g.us") (Some true) (Some "3EB0") None in
  receipts_in row []
  ∧ ∃ w1 w2,
      updateReceipt "s1" [(key, seen)] w = Ok tt w1
      ∧ updateReceipt "s1" [(key, seen)] w1 = Ok tt w2
      ∧ rows w2 = rows w1.
Proof.
  intros seen row w key.
  assert (Hin : receipts_in row []) by (right; split; reflexivity).
  split; [exact Hin|].
  destruct (updateReceipt_replay_idempotent "s1" key "g@g.us" "3EB0" seen row [] w
              eq_refl eq_refl eq_refl Hin) as (w1 & w2 & H1 & H2 & _ & Hsame).
  by exists w1, w2.
Defined.

Lemma updateReaction_replay_idempotent_witness :
  let liked := mkReaction (Some (mkKey (Some "g@g.us") (Some true) (Some "A1") None))
                 (Some "+1") None None in
  let row : Obj :=
    {[ "pkId" := VNum 1; "sessionId" := VStr "s1"; "remoteJid" := VStr "g@g.us";
       "id" := VStr "3EB0"; "reactions" := VReactions [liked] ]} in
  let w := mkWorld [row] 2 [] [] [] [] in
  let key := mkKey (Some "g@g.us") None (Some "3EB0") None in
  reactions_in row [liked]
  ∧ ∃ w1 w2,
      updateReaction "s1" [(key, liked)] w = Ok tt w1
      ∧ updateReaction "s1" [(key, liked)] w1 = Ok tt w2
      ∧ rows w2 = rows w1.
Proof.
  intros liked row w key.
  assert (Hin : reactions_in row [liked]) by (left; reflexivity).
  split; [exact Hin|].
  destruct (updateReaction_replay_idempotent "s1" key "g@g.us" "3EB0" liked row
              [liked] w eq_refl eq_refl eq_refl Hin) as (w1 & w2 & H1 & H2 & _ & Hsame).
  by exists w1, w2.
Defined.

(** ** Batches that repeat a key *)

(** A multi-row insert that succeeds was given pairwise distinct keys. *)
Lemma for_of_create_distinct ds : ∀ w w',
  for_of ds create w = Ok tt w' →
  ∀ n1 n2 d1 d2, n1 ≠ n2 → ds !! n1 = Some d1 → ds !! n2 = Some d2 →
                 is_Some (key_of d1) → key_of d1 ≠ key_of d2.
Proof.
  induction ds as [|d0 ds IH]; intros w w'; simpl; [by intros _ ? ? ? ? _ ?|].
  unfold bind. destruct (create d0 w) as [[] w1|e w1] eqn:Hc; [|done].
  intros Hrest n1 n2 d1 d2 Hne H1 H2 [k Hk].
  pose proof (for_of_create_fresh ds w1 w' Hrest) as Hfresh.
  apply create_ok in Hc as (st & Hrows & Hst & [k0 Hk0] & _).
  assert (Hhead : ∀ d, d ∈ ds → key_of d ≠ key_of d0).
  { intros d Hd Heq. rewrite Hk0 in Heq.
    specialize (Hfresh d k0 Hd Heq). rewrite Hrows, existsb_app in Hfresh.
    apply orb_false_iff in Hfresh as [_ Hfresh]. simpl in Hfresh.
    unfold has_key in Hfresh. rewrite (stored_as_key _ _ Hst), Hk0 in Hfresh.
    by rewrite bool_decide_eq_true_2 in Hfresh. }
  destruct n1 as [|n1], n2 as [|n2]; simpl in *; simplify_eq.
  - intros Heq. by apply (Hhead d2 (list_elem_of_lookup_2 _ _ _ H2)).
  - by apply (Hhead d1 (list_elem_of_lookup_2 _ _ _ H1)).
  - apply (IH _ _ Hrest n1 n2); eauto.
Qed.

(** X12.  A history batch that names the same composite key at two
    positions is rejected as a whole, with or without the resync flag: the
    insert fails, the table is as before the call (the delete of a resync
    is undone) and the call publishes the error outcome. *)
Theorem set_rejects_repeated_key s (messages : list Obj) (isLatest : bool)
    n1 n2 (m1 m2 : Obj) key1 key2 j i w :
  n1 ≠ n2 →
  messages !! n1 = Some m1 →
  messages !! n2 = Some m2 →
  m1 !! "key" = Some (VKey key1) →
  m2 !! "key" = Some (VKey key2) →
  key_remoteJid key1 = Some j → key_id key1 = Some i →
  key_remoteJid key2 = Some j → key_id key2 = Some i →
  ∃ w' e,
    set s messages isLatest w = Ok tt w'
    ∧ rows w' = rows w
    ∧ emitted w' = emitted w ++ [error_outcome "messages.upsert" "messages set" s e].
Proof.
  intros Hne Hn1 Hn2 Hk1 Hk2 Hj1 Hi1 Hj2 Hi2. rewrite set_run. unfold transaction.
  destruct (set_body s messages isLatest w) as [[] w1|e w1] eqn:Hrun.
  - exfalso. unfold set_body in Hrun.
    assert (Hdel : ∃ w0, (if isLatest then deleteMany (where_eq "sessionId" (Some s))
                          else ret tt) w = Ok tt w0).
    { destruct isLatest; by eexists. }
    destruct Hdel as [w0 Hdel]. unfold bind in Hrun. rewrite Hdel in Hrun.
    pose proof (process_messages_spec s messages w0) as Hps.
    destruct (map_of messages (process_message s) w0) as [ps w2|e w2]; [|done].
    destruct Hps as [-> Hps]. unfold createMany in Hrun.
    destruct (for_of ps create w0) as [[] w3|e w3] eqn:Hc; [|done].
    destruct (Forall2_lookup_l _ _ _ _ _ Hps Hn1) as (p1 & Hp1 & k1 & Hmk1 & ->).
    destruct (Forall2_lookup_l _ _ _ _ _ Hps Hn2) as (p2 & Hp2 & k2 & Hmk2 & ->).
    unfold message_key in Hmk1, Hmk2. rewrite Hk1 in Hmk1. rewrite Hk2 in Hmk2.
    injection Hmk1 as <-. injection Hmk2 as <-.
    rewrite Hj1, Hi1 in Hp1. rewrite Hj2, Hi2 in Hp2.
    apply (for_of_create_distinct ps w0 w3 Hc n1 n2 _ _ Hne Hp1 Hp2).
    + rewrite key_of_with_key_columns. by eexists.
    + by rewrite !key_of_with_key_columns.
  - pose proof (set_body_spec s messages isLatest w) as Hb. simpl in Hb.
    rewrite Hrun in Hb.
    exists (published (error_outcome "messages.upsert" "messages set" s e)
      (logged LError "An error occured during messages set" (with_rows (rows w) w1))), e.
    split; [done|]. cbn [rows emitted published logged with_rows]. by rewrite Hb.
Qed.

Lemma set_rejects_repeated_key_witness :
  let w := world_of (set "s1" [text_message chat "OLD" 1] true empty_world) in
  let batch := [text_message chat "A" 1; text_message chat "B" 2; text_message chat "A" 3] in
  (0 ≠ 2)%nat
  ∧ ∃ w' e,
      set "s1" batch true w = Ok tt w'
      ∧ rows w' = rows w
      ∧ emitted w' = emitted w ++ [error_outcome "messages.upsert" "messages set" "s1" e].
Proof.
  intros w batch.
  assert (Hne : (0 ≠ 2)%nat) by lia.
  split; [exact Hne|].
  exact (set_rejects_repeated_key "s1" batch true 0 2 (text_message chat "A" 1)
           (text_message chat "A" 3)
           (mkKey (Some chat) (Some false) (Some "A") None)
           (mkKey (Some chat) (Some false) (Some "A") None) chat "A" w
           Hne eq_refl eq_refl eq_refl eq_refl eq_refl eq_refl eq_refl eq_refl).
Defined.

(** ** Upsert under the normalised chat id, update under the received one *)

Lemma existsb_alter_first {A} (P Q : A → bool) f l r :
  List.find P l = Some r → Q (f r) = Q r →
  existsb Q (alter_first P f l) = existsb Q l.
Proof.
  induction l as [|x l IH]; simpl; [done|].
  destruct (P x) eqn:HP; simpl.
  - intros [= ->] E. by rewrite E.
  - intros Hl E. by rewrite IH.
Qed.

(** X13.  [upsert] files a message under the normalised chat id, while
    [update] looks a message up under the chat id of the event as
    received.  So when normalisation changes the chat id of a message,
    the row [upsert] stored is never found by an update event that
    carries the same key: the update is skipped with a log line, changing
    no row and publishing nothing. *)
Theorem update_misses_normalised_row (jidNormalizedUser : option string → string)
    (toNumber : option Val → Val) s type (message delta : Obj) key raw i w :
  type = "append" ∨ type = "notify" →
  message !! "key" = Some (VKey key) →
  key_remoteJid key = Some raw →
  key_id key = Some i →
  touches_key message = false →
  jidNormalizedUser (Some raw) ≠ raw →
  existsb (has_key (s, raw, i)) (rows w) = false →
  (length (List.filter (has_key (s, jidNormalizedUser (Some raw), i)) (rows w)) ≤ 1)%nat →
  ∃ w1 w2 stored,
    upsert jidNormalizedUser toNumber s [message] type w = Ok tt w1
    ∧ List.filter (has_key (s, jidNormalizedUser (Some raw), i)) (rows w1) = [stored]
    ∧ update s [(delta, key)] w1 = Ok tt w2
    ∧ rows w2 = rows w1
    ∧ emitted w2 = emitted w1
    ∧ logs w2 = logs w1 ++ [mkLog LInfo "Got update for non existent message"].
Proof.
  intros Htype Hkey Hraw Hid Ht Hnorm Hnone Hle.
  set (jid := jidNormalizedUser (Some raw)) in *.
  destruct (upsert_one_run jidNormalizedUser toNumber s type message key jid i w
              Htype Hkey) as (w1 & Hrun & Hrows); [by rewrite Hraw|done|done|].
  destruct (upserted_one_row s jid i message w Ht Hle) as (stored & Hone & _).
  rewrite <-Hrows in Hone.
  assert (Hmiss : existsb (has_key (s, raw, i)) (rows w1) = false).
  { rewrite Hrows. unfold upserted.
    destruct (List.find (has_key (s, jid, i)) (rows w)) as [r|] eqn:Hfind.
    - rewrite (existsb_alter_first _ _ _ _ r Hfind); [done|].
      unfold has_key. rewrite key_of_union_payload; [done|].
      by rewrite touches_key_transformPrisma.
    - rewrite existsb_app, Hnone. simpl. unfold has_key.
      rewrite key_of_insert_pk, key_of_with_key_columns.
      rewrite bool_decide_eq_false_2; [done|]. congruence. }
  pose proof (findFirst_message s key raw i w1 Hraw Hid) as Hfind.
  rewrite (find_none_existsb _ _ Hmiss) in Hfind.
  exists w1, (logged LInfo "Got update for non existent message" w1), stored.
  split; [done|]. split; [done|]. split; [|done].
  unfold update. cbn [for_of]. unfold bind, try_catch, transaction, update_body, bind.
  cbn [fst snd]. by rewrite Hfind.
Qed.

Lemma update_misses_normalised_row_witness :
  let raw := "628123:7@s.whatsapp.net" in
  let m := text_message raw "3EB0" 1 in
  let key := mkKey (Some raw) (Some false) (Some "3EB0") None in
  jidNormalizedUser_baileys (Some raw) ≠ raw
  ∧ ∃ w1 w2 stored,
      upsert jidNormalizedUser_baileys toNumber_baileys "s1" [m] "notify" empty_world
        = Ok tt w1
      ∧ List.filter (has_key ("s1", jidNormalizedUser_baileys (Some raw), "3EB0")) (rows w1)
        = [stored]
      ∧ update "s1" [({[ "status" := VNum 3 ]}, key)] w1 = Ok tt w2
      ∧ rows w2 = rows w1
      ∧ emitted w2 = emitted w1
      ∧ logs w2 = logs w1 ++ [mkLog LInfo "Got update for non existent message"].
Proof.
  intros raw m key.
  assert (Hnorm : jidNormalizedUser_baileys (Some raw) ≠ raw) by discriminate.
  split; [exact Hnorm|].
  refine (update_misses_normalised_row jidNormalizedUser_baileys toNumber_baileys
            "s1" "notify" m {[ "status" := VNum 3 ]} key raw "3EB0" empty_world
            (or_intror eq_refl) eq_refl eq_refl eq_refl eq_refl Hnorm eq_refl _).
  simpl. lia.
Defined.

(** ** The bulk send controller *)

Section SendBulkProperties.

Context (jidExists : nat → string → string → Thrown + bool)
        (updatePresence : nat → string → option Thrown)
        (sendMessage : nat → string → Obj → Obj → Thrown + option Obj)
        (sessionId : string).

Abbreviation item_step := (bulk_item jidExists updatePresence sendMessage sessionId).
Abbreviation loop := (bulk_loop jidExists updatePresence sendMessage sessionId).

(** The element at [index] ends in exactly one of three ways: sent,
    refused because the JID does not exist, or caught. *)
Lemma bulk_item_cases index item st :
  (∃ r, results (item_step index item st) = results st ++ [(index, r)]
        ∧ errors (item_step index item st) = errors st
        ∧ length (send_events (item_step index item st))
          = S (length (send_events st)))
  ∨ (results (item_step index item st) = results st
     ∧ errors (item_step index item st) = errors st ++ [(index, "JID does not exists")]
     ∧ send_events (item_step index item st) = send_events st)
  ∨ (results (item_step index item st) = results st
     ∧ errors (item_step index item st)
       = errors st ++ [(index, "An error occured during message send")]
     ∧ length (send_events (item_step index item st))
       = S (length (send_events st))).
Proof.
  unfold bulk_item.
  destruct (jidExists index _ _) as [e|[|]].
  - right. right. simpl. by rewrite length_app, Nat.add_1_r.
  - destruct (updatePresence index _) as [e|].
    + right. right. destruct (0 <? index)%nat; simpl; by rewrite length_app, Nat.add_1_r.
    + destruct (sendMessage index _ _ _) as [e|r].
      * right. right.
        destruct (0 <? index)%nat; simpl; by rewrite length_app, Nat.add_1_r.
      * left. exists r.
        destruct (0 <? index)%nat; simpl; by rewrite length_app, Nat.add_1_r.
  - right. by left.
Qed.

Lemma bulk_loop_spec body : ∀ index st,
  ∃ R E,
    results (loop index body st) = results st ++ R
    ∧ errors (loop index body st) = errors st ++ E
    ∧ map fst R ++ map fst E ≡ₚ seq index (length body)
    ∧ map fst R `sublist_of` seq index (length body)
    ∧ map fst E `sublist_of` seq index (length body)
    ∧ (length (send_events (loop index body st)) + length (List.filter refused E)
       = length (send_events st) + length body)%nat.
Proof.
  induction body as [|item body IH]; intros index st.
  - exists [], []. simpl. rewrite !app_nil_r. repeat split; try done; lia.
  - cbn [bulk_loop length seq].
    destruct (IH (S index) (item_step index item st))
      as (R & E & HR & HE & Hperm & HsR & HsE & Hev).
    destruct (bulk_item_cases index item st)
      as [(r & Hr & He & Hn)|[(Hr & He & Hn)|(Hr & He & Hn)]].
    + exists ((index, r) :: R), E. rewrite HR, HE, Hr, He, <-app_assoc.
      repeat split; try done.
      * simpl. by constructor.
      * simpl. by apply sublist_skip.
      * by apply sublist_cons.
      * lia.
    + exists R, ((index, "JID does not exists") :: E).
      rewrite HR, HE, Hr, He, <-app_assoc. repeat split; try done.
      * simpl. rewrite <-Permutation_middle. by constructor.
      * by apply sublist_cons.
      * simpl. by apply sublist_skip.
      * rewrite Hn in Hev. simpl. lia.
    + exists R, ((index, "An error occured during message send") :: E).
      rewrite HR, HE, Hr, He, <-app_assoc. repeat split; try done.
      * simpl. rewrite <-Permutation_middle. by constructor.
      * by apply sublist_cons.
      * simpl. by apply sublist_skip.
      * simpl. lia.
Qed.

End SendBulkProperties.

(** X14.  [sendBulk] answers for every element of the request body
    exactly once: the indices of [results] and of [errors] together are
    the positions 0 .. n-1 of the body, each once, and both arrays are in
    request order, whatever the collaborators answer or throw. *)
Theorem sendBulk_accounts_for_every_item
    (jidExists : nat → string → string → Thrown + bool)
    (updatePresence : nat → string → option Thrown)
    (sendMessage : nat → string → Obj → Obj → Thrown + option Obj)
    (sessionId : string) (body : list BulkItem) :
  let resp := sendBulk jidExists updatePresence sendMessage sessionId body in
  map fst (response_results resp) ++ map fst (response_errors resp)
    ≡ₚ seq 0 (length body)
  ∧ map fst (response_results resp) `sublist_of` seq 0 (length body)
  ∧ map fst (response_errors resp) `sublist_of` seq 0 (length body).
Proof.
  intros resp. unfold resp, sendBulk, bulk_run. cbn [response_results response_errors].
  destruct (bulk_loop_spec jidExists updatePresence sendMessage sessionId body 0
              (mkBulkRun [] [] [] [] [])) as (R & E & -> & -> & Hperm & HsR & HsE & _).
  done.
Qed.

(** X15.  The status of the bulk response is 500 exactly when the body is
    not empty and no element was sent; an empty body, or a body of which
    at least one element was sent, is answered with 200. *)
Theorem sendBulk_status
    (jidExists : nat → string → string → Thrown + bool)
    (updatePresence : nat → string → option Thrown)
    (sendMessage : nat → string → Obj → Obj → Thrown + option Obj)
    (sessionId : string) (body : list BulkItem) :
  let resp := sendBulk jidExists updatePresence sendMessage sessionId body in
  response_status resp
  = match body, response_results resp with
    | _ :: _, [] => 500
    | _, _ => 200
    end.
Proof.
  intros resp. unfold resp, sendBulk, bulk_run. cbn [response_results response_status].
  destruct (bulk_loop_spec jidExists updatePresence sendMessage sessionId body 0
              (mkBulkRun [] [] [] [] [])) as (R & E & -> & -> & Hperm & _).
  apply Permutation_length in Hperm.
  rewrite length_app, !length_map, length_seq in Hperm. simpl.
  destruct body as [|item body]; [done|]. simpl in *.
  destruct R as [|r R]; simpl in *.
  - by rewrite Hperm, Nat.eqb_refl.
  - destruct (Nat.eqb_spec (length E) (S (length body))); [lia|done].
Qed.

(** X16.  [sendBulk] publishes one [send.message] event for every element
    of the body that it sent or whose processing threw, and none for an
    element refused because its JID does not exist: events and refusals
    together are as many as the body has elements. *)
Theorem sendBulk_events
    (jidExists : nat → string → string → Thrown + bool)
    (updatePresence : nat → string → option Thrown)
    (sendMessage : nat → string → Obj → Obj → Thrown + option Obj)
    (sessionId : string) (body : list BulkItem) :
  let run := bulk_run jidExists updatePresence sendMessage sessionId body in
  (length (send_events run) + length (List.filter refused (errors run))
   = length body)%nat.
Proof.
  intros run. unfold run, bulk_run.
  destruct (bulk_loop_spec jidExists updatePresence sendMessage sessionId body 0
              (mkBulkRun [] [] [] [] [])) as (R & E & _ & -> & _ & _ & _ & Hev).
  simpl in *. lia.
Qed.

(** Three elements: the first is sent, the JID of the second does not
    exist, sending the third throws. *)
Example sendBulk_mixed :
  let item := mkBulkItem chat None None ∅ ∅ in
  let jidExists (i : nat) (_ _ : string) : Thrown + bool :=
    inr (negb (i =? 1)%nat) in
  let sendMessage (i : nat) (_ : string) (_ _ : Obj) : Thrown + option Obj :=
    if (i =? 2)%nat then inl (ErrorObj "Connection Closed") else inr None in
  let run := bulk_run jidExists (λ _ _, None) sendMessage "s1" [item; item; item] in
  let resp := sendBulk jidExists (λ _ _, None) sendMessage "s1" [item; item; item] in
  response_status resp = 200
  ∧ map fst (response_results resp) = [0%nat]
  ∧ response_errors resp
    = [(1%nat, "JID does not exists"); (2%nat, "An error occured during message send")]
  ∧ map send_message (send_events run)
    = [None; Some "An error occured during message send: An error occured during groups participants update: Connection Closed"]
  ∧ slept run = [1000].
Proof. by vm_compute. Qed.

(** ** Rows an upsert leaves alone *)

Lemma filter_alter_first_other {A} (P Q : A → bool) f l r :
  List.find P l = Some r → Q r = false → Q (f r) = false →
  List.filter Q (alter_first P f l) = List.filter Q l.
Proof.
  induction l as [|x l IH]; simpl; [done|].
  destruct (P x) eqn:HP; simpl.
  - intros [= ->] Hr Hf. by rewrite Hr, Hf.
  - intros Hl Hr Hf. by rewrite IH.
Qed.

(** X17.  An upsert changes the table only at the composite key of its
    message: for every other key, the rows carrying it are the same after
    the upsert as before, whether the message was inserted or updated an
    existing row. *)
Theorem upsert_touches_only_its_key (jidNormalizedUser : option string → string)
    (toNumber : option Val → Val) s type (message : Obj) key jid i w k' :
  type = "append" ∨ type = "notify" →
  message !! "key" = Some (VKey key) →
  jidNormalizedUser (key_remoteJid key) = jid →
  key_id key = Some i →
  touches_key message = false →
  k' ≠ (s, jid, i) →
  ∃ w', upsert jidNormalizedUser toNumber s [message] type w = Ok tt w'
        ∧ List.filter (has_key k') (rows w') = List.filter (has_key k') (rows w)
        ∧ is_Some (List.find (has_key (s, jid, i)) (rows w')).
Proof.
  intros Htype Hkey Hjid Hid Ht Hne.
  destruct (upsert_one_run jidNormalizedUser toNumber s type message key jid i w
              Htype Hkey Hjid Hid Ht) as (w' & Hrun & Hrows).
  exists w'. split; [done|]. rewrite Hrows. unfold upserted.
  destruct (List.find (has_key (s, jid, i)) (rows w)) as [r|] eqn:Hfind.
  - assert (Hr : key_of r = Some (s, jid, i)).
    { apply find_some_holds in Hfind. by apply bool_decide_eq_true in Hfind. }
    assert (Hu : key_of (transformPrisma message ∪ r) = Some (s, jid, i)).
    { rewrite key_of_union_payload; [done|]. by rewrite touches_key_transformPrisma. }
    split.
    + apply (filter_alter_first_other _ _ _ _ r); [done|..];
        unfold has_key; rewrite ?Hr, ?Hu; apply bool_decide_eq_false; congruence.
    + rewrite (alter_first_find _ (λ _, transformPrisma message ∪ r) _ r); [by eexists|done|].
      unfold has_key. by rewrite Hu, bool_decide_eq_true_2.
  - split.
    + rewrite List.filter_app. simpl. unfold has_key at 2.
      rewrite key_of_insert_pk, key_of_with_key_columns.
      rewrite bool_decide_eq_false_2 by congruence. by rewrite app_nil_r.
    + rewrite find_app_last; [by eexists|by apply existsb_find_none|].
      unfold has_key.
      by rewrite key_of_insert_pk, key_of_with_key_columns, bool_decide_eq_true_2.
Qed.

Lemma upsert_touches_only_its_key_witness :
  let w := world_of (set "s1" [text_message chat "A" 1; text_message chat "B" 2]
                       true empty_world) in
  let m := text_message chat "A" 5 in
  ("s1", chat, "B") ≠ ("s1", chat, "A")
  ∧ ∃ w', upsert jidNormalizedUser_baileys toNumber_baileys "s1" [m] "append" w = Ok tt w'
          ∧ List.filter (has_key ("s1", chat, "B")) (rows w')
            = List.filter (has_key ("s1", chat, "B")) (rows w)
          ∧ is_Some (List.find (has_key ("s1", chat, "A")) (rows w')).
Proof.
  intros w m.
  assert (Hne : ("s1", chat, "B") ≠ ("s1", chat, "A")) by discriminate.
  split; [exact Hne|].
  exact (upsert_touches_only_its_key jidNormalizedUser_baileys toNumber_baileys
           "s1" "append" m (mkKey (Some chat) (Some false) (Some "A") None)
           chat "A" w ("s1", chat, "B")
           (or_introl eq_refl) eq_refl eq_refl eq_refl eq_refl Hne).
Defined.
